(** * Stormspotter collector utilities: [stormspotter/collect/utils.py]

    A shallow embedding of the utilities of the module

    - [chunk]: the batching generator over a list or a dict,
    - [sqlite_writer]: the append-only result sink with its retry loop,
    - [gen_results_tables]: the summary renderer, which edits its
      arguments in place,
    - [get_all_subclasses]: the walk over a class hierarchy,

    and of the packer behind [msgpack.dumps], followed by the properties
    stated about them. *)

From Stdlib Require Import ZArith Lia.
From stdpp Require Import gmap strings list fin_maps sorting pretty.

Local Open Scope Z_scope.

(** ** Python exceptions met in the module *)

(** The sqlite condition behind an [OperationalError].  The module never
    inspects it: [suppress(OperationalError)] catches the whole class. *)
Inductive sqlite_cause :=
  | Busy          (* SQLITE_BUSY: database is locked *)
  | Locked        (* SQLITE_LOCKED: database table is locked *)
  | NoSuchTable   (* no such table: results *)
  | DiskFull      (* database or disk is full *)
  | CantOpen.     (* unable to open database file *)

Inductive exn :=
  | ValueError
  | TypeError
  | KeyError
  | OperationalError (c : sqlite_cause)
  | DatabaseError.

Inductive result (A : Type) :=
  | Ok (a : A)
  | Raise (e : exn).
Arguments Ok {A} a.
Arguments Raise {A} e.

Definition rbind {A B} (r : result A) (f : A → result B) : result B :=
  match r with
  | Ok a => f a
  | Raise e => Raise e
  end.

Notation "x <~ r ;; k" := (rbind r (fun x => k))
  (at level 100, r at next level, right associativity).

(** ** Python built-ins used by [chunk] *)

Module Py.

(** Length of [range(start, stop, step)] for [step <> 0], the way CPython
    computes it. *)
Definition range_length (start stop step : Z) : Z :=
  if 0 <? step then
    if start <? stop then (stop - start - 1) / step + 1 else 0
  else
    if stop <? start then (start - stop - 1) / (- step) + 1 else 0.

(** [range(start, stop, step)]: a zero step is a [ValueError]. *)
Definition range (start stop step : Z) : result (list Z) :=
  if step =? 0 then Raise ValueError
  else Ok (map (fun k : nat => start + Z.of_nat k * step)
               (seq 0 (Z.to_nat (range_length start stop step)))).

(** A slice bound brought into [0 .. len]: negative bounds count from the
    end, bounds past the end are clamped. *)
Definition slice_index (len i : Z) : Z :=
  if i <? 0 then Z.max 0 (i + len) else Z.min i len.

(** [l[lo:hi]] *)
Definition slice {A} (l : list A) (lo hi : Z) : list A :=
  let n := Z.of_nat (length l) in
  let a := slice_index n lo in
  let b := slice_index n hi in
  take (Z.to_nat (b - a)) (drop (Z.to_nat a) l).

(** [sys.maxsize] of a 64-bit CPython. *)
Definition sys_maxsize : Z := 2 ^ 63 - 1.

(** [islice(iterable, stop)]: the first [stop] items; a [stop] outside
    [0 .. sys.maxsize] is a [ValueError]. *)
Definition islice {A} (l : list A) (stop : Z) : result (list A) :=
  if (stop <? 0) || (sys_maxsize <? stop) then Raise ValueError
  else Ok (take (Z.to_nat stop) l).

End Py.

(** ** The chunker *)

Module Chunker.

Section Defs.
Context {K V : Type} `{EqDecision K}.

(** A Python dict: its items in insertion order, keys pairwise distinct. *)
Definition dict := list (K * V).

Definition keys (d : dict) : list K := map fst d.

Definition dict_wf (d : dict) : Prop := NoDup (keys d).

(** [d[k]] *)
Fixpoint dict_get (d : dict) (k : K) : result V :=
  match d with
  | [] => Raise KeyError
  | (k', v) :: d' => if decide (k = k') then Ok v else dict_get d' k
  end.

(** [d[k] = v]: an existing key keeps its position. *)
Fixpoint dict_set (d : dict) (k : K) (v : V) : dict :=
  match d with
  | [] => [(k, v)]
  | (k', v') :: d' =>
      if decide (k = k') then (k', v) :: d' else (k', v') :: dict_set d' k v
  end.

(** [{key: data[key] for key in ks}], started from [acc]. *)
Fixpoint dict_comp (data : dict) (ks : list K) (acc : dict) : result dict :=
  match ks with
  | [] => Ok acc
  | k :: ks' => v <~ dict_get data k ;; dict_comp data ks' (dict_set acc k v)
  end.

(** The argument of [chunk]: [Union[List, Dict]]. *)
Inductive data :=
  | DList (l : list V)
  | DDict (d : dict).

Definition len (d : data) : Z :=
  match d with
  | DList l => Z.of_nat (length l)
  | DDict m => Z.of_nat (length m)
  end.

(** The body of the [for] loop at index [idx]: the value yielded. *)
Definition chunk_body (d : data) (size idx : Z) : result data :=
  match d with
  | DList l => Ok (DList (Py.slice l idx (idx + size)))
  | DDict m =>
      ks <~ Py.islice (keys m) size ;;
      c <~ dict_comp m ks [] ;;
      Ok (DDict c)
  end.

(** The generator object.  Calling [chunk] only creates it; the body
    runs when the generator is advanced. *)
Inductive gen_state :=
  | Created
  | Iterating (pending : list Z)
  | Finished.

Record generator := Generator {
  g_data : data;
  g_size : Z;
  g_state : gen_state
}.

Definition chunk (d : data) (size : Z) : generator :=
  Generator d size Created.

Inductive step :=
  | Yield (c : data)
  | StopIteration
  | Raised (e : exn).

Definition set_state (g : generator) (s : gen_state) : generator :=
  Generator (g_data g) (g_size g) s.

Definition resume (g : generator) (idxs : list Z) : step * generator :=
  match idxs with
  | [] => (StopIteration, set_state g Finished)
  | idx :: rest =>
      match chunk_body (g_data g) (g_size g) idx with
      | Ok c => (Yield c, set_state g (Iterating rest))
      | Raise e => (Raised e, set_state g Finished)
      end
  end.

(** [next(g)] *)
Definition next (g : generator) : step * generator :=
  match g_state g with
  | Created =>
      match Py.range 0 (len (g_data g)) (g_size g) with
      | Ok idxs => resume g idxs
      | Raise e => (Raised e, set_state g Finished)
      end
  | Iterating idxs => resume g idxs
  | Finished => (StopIteration, g)
  end.

(** The chunks yielded over the indices [idxs]. *)
Fixpoint collect (d : data) (size : Z) (idxs : list Z) : result (list data) :=
  match idxs with
  | [] => Ok []
  | idx :: rest =>
      c <~ chunk_body d size idx ;;
      cs <~ collect d size rest ;;
      Ok (c :: cs)
  end.

(** [list(g)]: advance the generator until it stops. *)
Definition to_list (g : generator) : result (list data) :=
  match g_state g with
  | Created =>
      idxs <~ Py.range 0 (len (g_data g)) (g_size g) ;;
      collect (g_data g) (g_size g) idxs
  | Iterating idxs => collect (g_data g) (g_size g) idxs
  | Finished => Ok []
  end.

End Defs.

Arguments dict : clear implicits.
Arguments data : clear implicits.
Arguments generator : clear implicits.
Arguments step : clear implicits.

End Chunker.

(** ** The result sink *)

Module Sink.

(** [OperationalError] and its subclasses: what
    [suppress(OperationalError)] catches. *)
Definition is_operational (e : exn) : bool :=
  match e with
  | OperationalError _ => true
  | _ => false
  end.

(** The operational errors that report lock contention. *)
Definition is_transient_lock (e : exn) : bool :=
  match e with
  | OperationalError Busy | OperationalError Locked => true
  | _ => false
  end.

Section Defs.
(** The records handed to the sink and the bytes stored for them.
    [dumps] is [msgpack.dumps]: [None] when the codec cannot encode the
    value and raises [TypeError]. *)
Context {record blob : Type}.
Variable dumps : record → option blob.

(** The file at [output]: table [results], rows in [id] order. *)
Record store := Store {
  file_exists : bool;
  has_table : bool;
  rows : list blob
}.

(** What a call of [sqlite_writer] can see and change. *)
Record world := World {
  w_store : store;
  w_pending : list blob;  (* inserted on the open connection, not committed *)
  w_ops : nat;            (* driver calls made so far *)
  w_dumps : nat;          (* calls of [msgpack.dumps] so far *)
  w_res : record          (* the caller's [res] object *)
}.

(** The environment: the driver call number [n] fails with [e] when
    [faults n = Some e]. *)
Variable faults : nat → option exn.

Inductive outcome (A : Type) :=
  | Done (a : A) (w : world)
  | Fail (e : exn) (w : world)
  | Spin (w : world).      (* the [while True] loop has not left yet *)
Arguments Done {A} a w.
Arguments Fail {A} e w.
Arguments Spin {A} w.

Definition M (A : Type) := world → outcome A.

Definition ret {A} (a : A) : M A := fun w => Done a w.

Definition bind {A B} (m : M A) (k : A → M B) : M B := fun w =>
  match m w with
  | Done a w' => k a w'
  | Fail e w' => Fail e w'
  | Spin w' => Spin w'
  end.

Notation "x <- m ;; k" := (bind m (fun x => k))
  (at level 100, m at next level, right associativity).
Notation "m ;;; k" := (bind m (fun _ => k))
  (at level 100, right associativity).

(** *** The driver *)

Definition tick (w : world) : world :=
  World (w_store w) (w_pending w) (S (w_ops w)) (w_dumps w) (w_res w).

Definition set_store (w : world) (s : store) : world :=
  World s (w_pending w) (w_ops w) (w_dumps w) (w_res w).

Definition set_pending (w : world) (p : list blob) : world :=
  World (w_store w) p (w_ops w) (w_dumps w) (w_res w).

(** One driver call: the environment may fail it, otherwise [effect]
    runs.  The environment only fails calls: what other writers do to the
    store between two calls is not part of the model, which follows the
    effect of this call on the store. *)
Definition driver_call {A} (effect : M A) : M A := fun w =>
  match faults (w_ops w) with
  | Some e => Fail e (tick w)
  | None => effect (tick w)
  end.

(** [aiosqlite.connect(output)]: creates the file when it is missing. *)
Definition connect : M unit :=
  driver_call (fun w =>
    let s := w_store w in
    Done tt (set_pending (set_store w (Store true (has_table s) (rows s))) [])).

(** Leaving [async with]: the connection is closed, what it had not
    committed is dropped. *)
Definition close (w : world) : world := set_pending w [].

(** [CREATE TABLE IF NOT EXISTS results (...)] *)
Definition execute_create : M unit :=
  driver_call (fun w =>
    let s := w_store w in
    Done tt (set_store w (Store (file_exists s) true (rows s)))).

(** [INSERT INTO results (result) VALUES (?)] *)
Definition execute_insert (b : blob) : M unit :=
  driver_call (fun w =>
    if has_table (w_store w)
    then Done tt (set_pending w (w_pending w ++ [b]))
    else Fail (OperationalError NoSuchTable) w).

(** [db.commit()] *)
Definition commit : M unit :=
  driver_call (fun w =>
    let s := w_store w in
    Done tt (set_pending
               (set_store w (Store (file_exists s) (has_table s)
                                   (rows s ++ w_pending w))) [])).

(** *** Python control structures *)

(** [async with aiosqlite.connect(output) as db: body] *)
Definition with_connection {A} (body : M A) : M A := fun w =>
  match connect w with
  | Done _ w1 =>
      match body w1 with
      | Done a w2 => Done a (close w2)
      | Fail e w2 => Fail e (close w2)
      | Spin w2 => Spin w2
      end
  | Fail e w1 => Fail e w1
  | Spin w1 => Spin w1
  end.

(** [with suppress(OperationalError): body].  [Some a]: the body ran to
    its end; [None]: an [OperationalError] was swallowed. *)
Definition suppress {A} (body : M A) : M (option A) := fun w =>
  match body w with
  | Done a w' => Done (Some a) w'
  | Fail e w' => if is_operational e then Done None w' else Fail e w'
  | Spin w' => Spin w'
  end.

(** [Path(output).exists()] *)
Definition path_exists : M bool := fun w => Done (file_exists (w_store w)) w.

Definition count_dumps (w : world) : world :=
  World (w_store w) (w_pending w) (w_ops w) (S (w_dumps w)) (w_res w).

(** [msgpack.dumps(res)] *)
Definition msgpack_dumps : M blob := fun w =>
  match dumps (w_res w) with
  | Some b => Done b (count_dumps w)
  | None => Fail TypeError (count_dumps w)
  end.

(** *** [sqlite_writer] *)

(** Lines 25-34: the table is created when the path does not exist. *)
Definition ensure_schema : M unit :=
  present <- path_exists ;;
  if present then ret tt
  else
    _ <- suppress (with_connection (execute_create ;;; commit)) ;;
    ret tt.

(** One pass through the body of the [while True] loop: [Some tt] when
    [break] was reached. *)
Definition attempt : M (option unit) :=
  suppress (
    b <- msgpack_dumps ;;
    execute_insert b ;;;
    commit).

(** The [while True] loop, for at most [fuel] passes. *)
Fixpoint retry_loop (fuel : nat) : M unit :=
  match fuel with
  | O => fun w => Spin w
  | S fuel' =>
      r <- attempt ;;
      match r with
      | Some _ => ret tt
      | None => retry_loop fuel'
      end
  end.

Definition sqlite_writer (fuel : nat) : M unit :=
  ensure_schema ;;;
  with_connection (retry_loop fuel).

(** *** Vocabulary of the properties *)

(** The world an outcome ends in. *)
Definition final_world {A} (o : outcome A) : world :=
  match o with
  | Done _ w | Fail _ w | Spin w => w
  end.




End Defs.

Arguments Done {record blob A} a w.
Arguments Fail {record blob A} e w.
Arguments Spin {record blob A} w.
Arguments store : clear implicits.
Arguments world : clear implicits.
Arguments outcome : clear implicits.

End Sink.

(** ** The summary renderer *)

Module Summary.

(** A [Counter]: category to count; the key [None] is Python's [None]. *)
Abbreviation counter := (gmap (option string) Z).

(** The objects of the caller, by identity.  The two arguments of
    [gen_results_tables] are references into this store and may be the
    same object. *)
Abbreviation heap := (gmap nat counter).

Definition deref (h : heap) (l : nat) : counter := default ∅ (h !! l).

(** [if c:] for a mapping: true when it has an entry. *)
Definition truthy (c : counter) : bool := bool_decide (c ≠ ∅).

(** [c.pop(None, None)] on the object [l]. *)
Definition pop_none (l : nat) (h : heap) : heap :=
  <[l := delete None (deref h l)]> h.

Definition item := (option string * Z)%type.

(** Order of [(key, count)] tuples whose keys are strings. *)
Definition item_leb (a b : item) : bool :=
  match a.1, b.1 with
  | Some x, Some y =>
      if String.eqb x y then a.2 <=? b.2 else String.ltb x y
  | _, _ => true
  end.

(** [sorted(c.items())].  Ordering [None] against a string is a
    [TypeError], which any sort of two or more items runs into when one
    key is [None]. *)
Definition sorted_items (c : counter) : result (list item) :=
  let its := map_to_list c in
  if bool_decide (is_Some (c !! None)) && (2 <=? length its)%nat
  then Raise TypeError
  else Ok (merge_sort (fun a b => item_leb a b) its).

(** [sum(c.values())] *)
Definition total (c : counter) : Z := map_fold (fun _ v acc => v + acc) 0 c.

(** [table.add_row(k, str(v))] *)
Definition row (it : item) : option string * string := (it.1, pretty it.2).

Record table := Table { t_rows : list (option string * string) }.

Record panel := Panel { p_title : string; p_tables : list table }.

Definition render_aad (c : counter) : result panel :=
  its <~ sorted_items c ;;
  Ok (Panel ("[bold yellow]AAD Results (Total: " +:+ pretty (total c) +:+ ")[/]")
            [Table (map row its)]).

(** The rows of one chunk of the sorted item list. *)
Definition chunk_rows (c : Chunker.data string item) : list (option string * string) :=
  match c with
  | Chunker.DList l => map row l
  | Chunker.DDict _ => []
  end.

Definition render_arm (c : counter) : result panel :=
  its <~ sorted_items c ;;
  chunks <~ Chunker.to_list
              (Chunker.chunk (Chunker.DList its) (Z.of_nat (size c) / 3 + 1)) ;;
  Ok (Panel ("[bold yellow]ARM Results (Total: " +:+ pretty (total c) +:+ ")[/]")
            (map (fun ch => Table (chunk_rows ch)) chunks)).

(** [gen_results_tables(aad_results, arm_results)]: the panels, and the
    caller's objects as the call leaves them. *)
Definition gen_results_tables (aad arm : nat) (h : heap)
  : result (list panel) * heap :=
  let '(r1, h1) :=
    if truthy (deref h aad) then
      let h1 := pop_none aad h in
      (p <~ render_aad (deref h1 aad) ;; Ok [p], h1)
    else (Ok [], h) in
  match r1 with
  | Raise e => (Raise e, h1)
  | Ok tables =>
      if truthy (deref h1 arm) then
        let h2 := pop_none arm h1 in
        (p <~ render_arm (deref h2 arm) ;; Ok (tables ++ [p]), h2)
      else (Ok tables, h1)
  end.

End Summary.

(** ** The class walker *)

Module Classes.

(** A class object: its identity, and the classes that
    [cls.__subclasses__()] lists, each with its own subclasses in turn.
    A class reached along two paths appears under both parents, with the
    same identity. *)
Inductive klass :=
  | Klass (ident : nat) (subs : list klass).

Definition kid (c : klass) : nat :=
  match c with
  | Klass i _ => i
  end.

(** [cls.__subclasses__()] *)
Definition subclasses (c : klass) : list klass :=
  match c with
  | Klass _ subs => subs
  end.

(** [get_all_subclasses(cls)].  The set of classes is kept as the set of
    their identities; the list comprehension walks the set returned for
    each direct subclass. *)
Fixpoint get_all_subclasses (c : klass) : gset nat :=
  match c with
  | Klass _ subs =>
      list_to_set (map kid subs)
      ∪ list_to_set
          (concat (map (fun d => elements (get_all_subclasses d)) subs))
  end.

(** [d] is below [c]: a subclass, or a subclass of a subclass, and so on. *)
Inductive descendant : klass → klass → Prop :=
  | descendant_child (c d : klass) :
      d ∈ subclasses c → descendant c d
  | descendant_deeper (c d e : klass) :
      d ∈ subclasses c → descendant d e → descendant c e.

End Classes.

(** ** The codec *)

Module Msgpack.

(** Modelled after the packer of msgpack-python 1.0 (its C
    implementation, with default options); [msgpack.dumps] is its
    [packb].  The library is not part of the repository.

    The Python values covered: [None], booleans, integers, strings (kept
    as their UTF-8 bytes), lists, tuples, dicts, and instances of classes
    the packer has no case for.  Floats, bytes and extension types are
    left out. *)
Inductive pyval :=
  | PNone
  | PBool (b : bool)
  | PInt (n : Z)
  | PStr (utf8 : list Z)
  | PList (items : list pyval)
  | PTuple (items : list pyval)
  | PDict (items : list (pyval * pyval))
  | PObject (ident : nat).

(** The [width] low bytes of [n], most significant first; a negative
    [n] in two's complement. *)
Definition be (width : nat) (n : Z) : list Z :=
  map (fun i : nat => Z.land (Z.shiftr n (8 * Z.of_nat i)) 255)
      (rev (seq 0 width)).

(** The longest string, array or map: [2**32 - 1] items. *)
Definition item_limit : Z := 2 ^ 32 - 1.

(** An integer takes the shortest format that holds it; outside
    [-2**63 .. 2**64 - 1] the packer raises [OverflowError]. *)
Definition pack_int (n : Z) : option (list Z) :=
  if 0 <? n then
    if n <? 2 ^ 7 then Some [n]
    else if n <? 2 ^ 8 then Some (204 :: be 1 n)
    else if n <? 2 ^ 16 then Some (205 :: be 2 n)
    else if n <? 2 ^ 32 then Some (206 :: be 4 n)
    else if n <? 2 ^ 64 then Some (207 :: be 8 n)
    else None
  else
    if n <? - 2 ^ 63 then None
    else if n <? - 2 ^ 31 then Some (211 :: be 8 n)
    else if n <? - 2 ^ 15 then Some (210 :: be 4 n)
    else if n <? - 2 ^ 7 then Some (209 :: be 2 n)
    else if n <? - 2 ^ 5 then Some (208 :: be 1 n)
    else Some (be 1 n).

Definition str_header (n : Z) : option (list Z) :=
  if n <? 32 then Some [160 + n]
  else if n <? 2 ^ 8 then Some (217 :: be 1 n)
  else if n <? 2 ^ 16 then Some (218 :: be 2 n)
  else if n <=? item_limit then Some (219 :: be 4 n)
  else None.

Definition array_header (n : Z) : option (list Z) :=
  if n <? 16 then Some [144 + n]
  else if n <? 2 ^ 16 then Some (220 :: be 2 n)
  else if n <=? item_limit then Some (221 :: be 4 n)
  else None.

Definition map_header (n : Z) : option (list Z) :=
  if n <? 16 then Some [128 + n]
  else if n <? 2 ^ 16 then Some (222 :: be 2 n)
  else if n <=? item_limit then Some (223 :: be 4 n)
  else None.

(** [Packer._pack(o, nest_limit)]; [nest_limit] here is the number of
    levels still allowed, one more than the library's counter, which
    raises [ValueError] when it falls below zero.  [None] stands for any
    of the packer's errors.  A list and a tuple take the same case. *)
Fixpoint pack (v : pyval) (nest_limit : nat) {struct v} : option (list Z) :=
  match nest_limit with
  | O => None
  | S limit =>
      match v with
      | PNone => Some [192]
      | PBool false => Some [194]
      | PBool true => Some [195]
      | PInt n => pack_int n
      | PStr u =>
          h ← str_header (Z.of_nat (length u));
          Some (h ++ u)
      | PList items | PTuple items =>
          h ← array_header (Z.of_nat (length items));
          body ← (fix pack_all (l : list pyval) : option (list Z) :=
                    match l with
                    | [] => Some []
                    | x :: l' =>
                        bx ← pack x limit;
                        bl ← pack_all l';
                        Some (bx ++ bl)
                    end) items;
          Some (h ++ body)
      | PDict items =>
          h ← map_header (Z.of_nat (length items));
          body ← (fix pack_pairs (l : list (pyval * pyval))
                    : option (list Z) :=
                    match l with
                    | [] => Some []
                    | (k, x) :: l' =>
                        bk ← pack k limit;
                        bx ← pack x limit;
                        bl ← pack_pairs l';
                        Some (bk ++ bx ++ bl)
                    end) items;
          Some (h ++ body)
      | PObject _ => None
      end
  end.

(** [msgpack.dumps(o)]: the library starts with [nest_limit = 511]. *)
Definition dumps (v : pyval) : option (list Z) := pack v 512.

End Msgpack.

(** ** Vocabulary of the properties *)

(** [ceil(L / size)] for a positive [size]. *)
Definition ceil_div (L size : Z) : Z := (L + size - 1) / size.

(** The generator after [n] calls of [next]. *)
Fixpoint advance {K V : Type} `{EqDecision K}
    (n : nat) (g : Chunker.generator K V) : Chunker.generator K V :=
  match n with
  | O => g
  | S n' => advance n' (Chunker.next g).2
  end.

(** ** Sample inputs *)

Module Samples.
Import Sink.

(** A record is an integer or an object the codec has no encoding for. *)
Inductive sample :=
  | SInt (n : Z)
  | SObject.

Definition sample_dumps (r : sample) : option (list Z) :=
  match r with
  | SInt n => Some [n]
  | SObject => None
  end.

Definition sample_loads (b : list Z) : option sample :=
  match b with
  | [n] => Some (SInt n)
  | _ => None
  end.

(** No file at the path yet. *)
Definition fresh (r : sample) : world sample (list Z) :=
  World (Store false false []) [] 0 0 r.

(** The file exists, with its table and one row. *)
Definition ready (r : sample) : world sample (list Z) :=
  World (Store true true [[1]]) [] 0 0 r.

Definition no_faults : nat → option exn := fun _ => None.




(** One counter object with a [None] entry, held by the caller. *)
Definition sample_counter : Summary.counter :=
  <[None := 3]> (<[Some "vm"%string := 2]> (<[Some "disk"%string := 5]> ∅)).

Definition sample_heap : Summary.heap := <[7%nat := sample_counter]> ∅.

End Samples.

(** ** Further sample inputs *)

Module Fixtures.
Import Sink Samples.

(** The file exists and holds no table. *)
Definition tableless (r : sample) : world sample (list Z) :=
  World (Store true false []) [] 0 0 r.

(** The first driver call finds the database locked. *)
Definition locked_first : nat → option exn := fun k =>
  match k with
  | 0%nat => Some (OperationalError Busy)
  | _ => None
  end.

(** The connection opens and the [CREATE TABLE] statement finds the
    database locked. *)
Definition locked_create : nat → option exn := fun k =>
  match k with
  | 1%nat => Some (OperationalError Locked)
  | _ => None
  end.

(** The commit of the first pass fails with an error that is not
    operational (the calls before it are the connect and the insert). *)
Definition corrupt_commit : nat → option exn := fun k =>
  match k with
  | 2%nat => Some DatabaseError
  | _ => None
  end.

(** The caller holds one counter whose only entry is [None], and an empty
    one. *)
Definition none_only_heap : Summary.heap :=
  <[1%nat := {[None := 4]}]> (<[2%nat := ∅]> ∅).

(** A diamond: classes 1 and 2 derive from 0, class 3 from both. *)
Definition diamond : Classes.klass :=
  Classes.Klass 0 [Classes.Klass 1 [Classes.Klass 3 []];
                   Classes.Klass 2 [Classes.Klass 3 []]].

End Fixtures.

(** * Properties *)

(** ** Arithmetic of [range] and of slices *)

Section RangeFacts.

Lemma ceil_div_bounds L size :
  0 ≤ L → 0 < size →
  0 ≤ ceil_div L size
  ∧ L ≤ ceil_div L size * size
  ∧ ceil_div L size * size < L + size.
Proof.
  intros HL Hs. unfold ceil_div.
  pose proof (Z.div_mod (L + size - 1) size ltac:(lia)) as Hdm.
  pose proof (Z.mod_pos_bound (L + size - 1) size Hs) as Hm.
  pose proof (Z.div_pos (L + size - 1) size ltac:(lia) Hs) as Hq.
  nia.
Qed.

Lemma ceil_div_0 size : 0 < size → ceil_div 0 size = 0.
Proof. intros Hs. unfold ceil_div. apply Z.div_small. lia. Qed.

Lemma range_length_ceil L size :
  0 ≤ L → 0 < size → Py.range_length 0 L size = ceil_div L size.
Proof.
  intros HL Hs. unfold Py.range_length, ceil_div.
  destruct (Z.ltb_spec 0 size); [|lia].
  destruct (Z.ltb_spec 0 L).
  - replace (L + size - 1) with (L - 0 - 1 + 1 * size) by lia.
    rewrite Z.div_add by lia. reflexivity.
  - replace L with 0 by lia. symmetry. apply Z.div_small. lia.
Qed.

Lemma range_forward L size :
  0 ≤ L → 0 < size →
  Py.range 0 L size
  = Ok (map (fun k : nat => Z.of_nat k * size)
            (seq 0 (Z.to_nat (ceil_div L size)))).
Proof.
  intros HL Hs. unfold Py.range.
  destruct (Z.eqb_spec size 0); [lia|].
  rewrite range_length_ceil by lia. reflexivity.
Qed.

Lemma range_backward L size :
  0 ≤ L → size < 0 → Py.range 0 L size = Ok [].
Proof.
  intros HL Hs. unfold Py.range, Py.range_length.
  destruct (Z.eqb_spec size 0); [lia|].
  destruct (Z.ltb_spec 0 size); [lia|].
  destruct (Z.ltb_spec L 0); [lia|]. reflexivity.
Qed.

Lemma slice_forward {A} (l : list A) (idx size : Z) :
  0 ≤ idx → 0 < size →
  Py.slice l idx (idx + size)
  = take (Z.to_nat size) (drop (Z.to_nat idx) l).
Proof.
  intros Hi Hs. unfold Py.slice, Py.slice_index.
  destruct (Z.ltb_spec idx 0); [lia|].
  destruct (Z.ltb_spec (idx + size) 0); [lia|].
  set (n := Z.of_nat (length l)).
  destruct (Z.le_gt_cases n idx) as [Hge|Hlt].
  - rewrite !Z.min_r by lia.
    rewrite !drop_ge by lia. by rewrite !take_nil.
  - rewrite (Z.min_l idx) by lia.
    destruct (Z.le_gt_cases (idx + size) n).
    + rewrite Z.min_l by lia. f_equal. lia.
    + rewrite Z.min_r by lia.
      rewrite !take_ge; [done| |]; rewrite length_drop; lia.
Qed.

(** Consecutive windows of width [s] glue back to a prefix. *)
Lemma concat_windows {A} (l : list A) (s n : nat) :
  concat (map (fun k => take s (drop (k * s) l)) (seq 0 n)) = take (n * s) l.
Proof.
  induction n as [|n IH]; [done|].
  rewrite seq_S, map_app, concat_app, IH. simpl.
  rewrite app_nil_r, take_take_drop. f_equal. lia.
Qed.

End RangeFacts.

(** ** The chunker on lists *)

Section ChunkerFacts.
Context {K V : Type} `{EqDecision K}.
Import Chunker.

(** [to_list] is what repeated [next] produces. *)
Lemma to_list_next (g : generator K V) :
  to_list g =
  match next g with
  | (Yield c, g') => cs <~ to_list g' ;; Ok (c :: cs)
  | (StopIteration, _) => Ok []
  | (Raised e, _) => Raise e
  end.
Proof.
  assert (Hres : ∀ idxs,
    collect (g_data g) (g_size g) idxs =
    match resume g idxs with
    | (Yield c, g') => cs <~ to_list g' ;; Ok (c :: cs)
    | (StopIteration, _) => Ok []
    | (Raised e, _) => Raise e
    end).
  { intros [|idx rest]; simpl; [done|].
    destruct (chunk_body _ _ idx); simpl; done. }
  unfold to_list, next. destruct (g_state g); simpl; [|apply Hres|done].
  destruct (Py.range _ _ _); simpl; [apply Hres|done].
Qed.

Lemma collect_list (l : list V) (size : Z) (idxs : list Z) :
  collect (K:=K) (DList l) size idxs
  = Ok (map (fun idx => DList (Py.slice l idx (idx + size))) idxs).
Proof.
  induction idxs as [|idx rest IH]; simpl; [done|]. by rewrite IH.
Qed.

(** The chunks of a list, in closed form. *)
Lemma to_list_chunk_list (l : list V) (size : Z) :
  0 < size →
  to_list (chunk (K:=K) (DList l) size)
  = Ok (map DList
          (map (fun k => take (Z.to_nat size) (drop (k * Z.to_nat size) l))
               (seq 0 (Z.to_nat (ceil_div (Z.of_nat (length l)) size))))).
Proof.
  intros Hs. unfold to_list, chunk; simpl.
  rewrite range_forward by lia. simpl.
  rewrite collect_list. f_equal.
  rewrite !map_map. apply map_ext. intros k.
  rewrite slice_forward by lia. do 3 f_equal. lia.
Qed.

(** C2: for a list of length [L] and a positive [size], [chunk] yields
    exactly [ceil(L/size)] chunks; chunk number [i] is the contiguous
    window of [size] items starting at [i * size], it is not empty and
    not longer than [size], and every chunk but the last has exactly
    [size] items; the chunks concatenated give the list back; an empty
    list gives no chunk. *)
Theorem chunk_list_spec (l : list V) (size : Z) :
  0 < size →
  ∃ cs : list (list V),
    to_list (chunk (K:=K) (DList l) size) = Ok (map DList cs)
    ∧ Z.of_nat (length cs) = ceil_div (Z.of_nat (length l)) size
    ∧ (∀ (i : nat) (c : list V), cs !! i = Some c →
         c = take (Z.to_nat size) (drop (i * Z.to_nat size) l)
         ∧ (0 < length c ≤ Z.to_nat size)%nat
         ∧ ((S i < length cs)%nat → length c = Z.to_nat size))
    ∧ concat cs = l
    ∧ (l = [] → cs = []).
Proof.
  intros Hs.
  pose proof (ceil_div_bounds (Z.of_nat (length l)) size ltac:(lia) Hs)
    as (Hq0 & Hcover & Hlast).
  set (q := ceil_div (Z.of_nat (length l)) size) in *.
  set (s := Z.to_nat size).
  exists (map (fun k => take s (drop (k * s) l)) (seq 0 (Z.to_nat q))).
  split; [by apply to_list_chunk_list|].
  split; [rewrite length_map, length_seq; lia|].
  split; [|split].
  - intros i c Hi. rewrite length_map, length_seq.
    rewrite list_lookup_fmap in Hi.
    destruct (seq 0 (Z.to_nat q) !! i) as [k|] eqn:Hk; [|done].
    apply lookup_seq in Hk as [-> Hlt]. simpl in Hi.
    injection Hi as <-. split; [done|].
    rewrite length_take, length_drop.
    assert (Z.of_nat i * size < Z.of_nat (length l)) by nia.
    assert (Z.of_nat (i * s) = Z.of_nat i * size) by (subst s; lia).
    split; [subst s; lia|].
    intros HS.
    assert (Z.of_nat (S i) * size ≤ Z.of_nat (length l)) by nia.
    subst s; lia.
  - rewrite concat_windows. apply take_ge. subst s. nia.
  - intros ->. simpl in q. subst q. rewrite ceil_div_0 by done. done.
Qed.

(** X1: [chunk(data, 1)] on a list: one chunk per element. *)
Lemma chunk_list_size_one (l : list V) :
  to_list (chunk (K:=K) (DList l) 1) = Ok (map (fun x => DList [x]) l).
Proof.
  rewrite to_list_chunk_list by lia. f_equal.
  unfold ceil_div. rewrite Z.div_1_r.
  replace (Z.to_nat (Z.of_nat (length l) + 1 - 1)) with (length l) by lia.
  rewrite map_map.
  apply list_eq. intros i. rewrite !list_lookup_fmap.
  destruct (l !! i) as [x|] eqn:Hx; simpl.
  - rewrite (lookup_seq_lt 0 (length l) i) by (by eapply lookup_lt_Some).
    simpl. do 2 f_equal.
    replace (i * Z.to_nat 1)%nat with i by lia.
    by rewrite (drop_S _ x _ Hx).
  - rewrite lookup_seq_ge; [done|]. by apply lookup_ge_None.
Qed.

(** [chunk(data, len(data))] on a non-empty list: the list itself. *)
Lemma chunk_list_whole (l : list V) :
  l ≠ [] →
  to_list (chunk (K:=K) (DList l) (Z.of_nat (length l))) = Ok [DList l].
Proof.
  intros Hne.
  assert (0 < length l)%nat by (destruct l; simpl; [done|lia]).
  rewrite to_list_chunk_list by lia.
  replace (ceil_div (Z.of_nat (length l)) (Z.of_nat (length l))) with 1.
  - replace (Z.to_nat 1) with 1%nat by lia. cbn [seq map].
    rewrite Nat2Z.id, Nat.mul_0_l, drop_0, take_ge by lia. done.
  - unfold ceil_div.
    replace (Z.of_nat (length l) + Z.of_nat (length l) - 1)
      with (Z.of_nat (length l) - 1 + 1 * Z.of_nat (length l)) by lia.
    rewrite Z.div_add by lia. rewrite Z.div_small by lia. done.
Qed.

End ChunkerFacts.

(** ** The chunker on dicts *)

Section ChunkerDictFacts.
Context {K V : Type} `{EqDecision K}.
Import Chunker.

Lemma dict_get_at (pre rest : dict K V) (k : K) (v : V) :
  k ∉ keys pre → dict_get (pre ++ (k, v) :: rest) k = Ok v.
Proof.
  induction pre as [|[k' v'] pre IH]; simpl; intros Hk.
  - by rewrite decide_True.
  - apply not_elem_of_cons in Hk as [Hne Hk].
    rewrite decide_False by done. by apply IH.
Qed.

Lemma dict_set_fresh (pre : dict K V) (k : K) (v : V) :
  k ∉ keys pre → dict_set pre k v = pre ++ [(k, v)].
Proof.
  induction pre as [|[k' v'] pre IH]; simpl; intros Hk; [done|].
  apply not_elem_of_cons in Hk as [Hne Hk].
  rewrite decide_False by done. by rewrite IH.
Qed.

(** Copying the first [n] remaining keys of a dict, one by one, copies
    its first [n] remaining items. *)
Lemma dict_comp_prefix (n : nat) (pre rest : dict K V) :
  dict_wf (pre ++ rest) →
  dict_comp (pre ++ rest) (keys (take n rest)) pre = Ok (pre ++ take n rest).
Proof.
  revert pre rest. induction n as [|n IH]; intros pre rest Hwf.
  - simpl. by rewrite app_nil_r.
  - destruct rest as [|[k v] rest]; simpl; [by rewrite app_nil_r|].
    assert (k ∉ keys pre) as Hk.
    { unfold dict_wf, keys in Hwf. rewrite map_app in Hwf.
      apply NoDup_app in Hwf as (_ & Hdisj & _).
      intros Hin. apply (Hdisj k Hin). simpl. left. }
    rewrite dict_get_at by done. simpl.
    rewrite dict_set_fresh by done.
    replace (pre ++ (k, v) :: rest) with ((pre ++ [(k, v)]) ++ rest) in *
      by (by rewrite <- app_assoc).
    rewrite IH by done. by rewrite <- !app_assoc.
Qed.

(** Whatever the index, the loop body yields the first [size] items. *)
Lemma chunk_body_dict (m : dict K V) (size idx : Z) :
  dict_wf m → 0 ≤ size ≤ Py.sys_maxsize →
  chunk_body (DDict m) size idx = Ok (DDict (take (Z.to_nat size) m)).
Proof.
  intros Hwf Hs. unfold chunk_body, Py.islice.
  destruct (Z.ltb_spec size 0); [lia|].
  destruct (Z.ltb_spec Py.sys_maxsize size); [lia|]. simpl.
  unfold keys at 1. rewrite firstn_map.
  pose proof (dict_comp_prefix (Z.to_nat size) [] m Hwf) as Hc.
  simpl in Hc. unfold keys in Hc. by rewrite Hc.
Qed.

Lemma collect_dict (m : dict K V) (size : Z) (idxs : list Z) :
  dict_wf m → 0 ≤ size ≤ Py.sys_maxsize →
  collect (DDict m) size idxs
  = Ok (replicate (length idxs) (DDict (take (Z.to_nat size) m))).
Proof.
  intros Hwf Hs. induction idxs as [|idx rest IH]; cbn [collect]; [done|].
  rewrite chunk_body_dict by done. cbn [rbind]. by rewrite IH.
Qed.

(** The chunks of a dict, in closed form: [ceil(L/size)] copies of its
    first [size] items, for a size that [islice] accepts. *)
Lemma to_list_chunk_dict (m : dict K V) (size : Z) :
  dict_wf m → 0 < size ≤ Py.sys_maxsize →
  to_list (chunk (DDict m) size)
  = Ok (replicate (Z.to_nat (ceil_div (Z.of_nat (length m)) size))
                  (DDict (take (Z.to_nat size) m))).
Proof.
  intros Hwf Hs. unfold to_list, chunk; simpl.
  rewrite range_forward by lia. simpl.
  rewrite collect_dict by (done || lia).
  by rewrite length_map, length_seq.
Qed.

(** [chunk(data, len(data))] on a non-empty dict: the dict itself.  The
    length of a dict is within [sys.maxsize]. *)
Lemma chunk_dict_whole (m : dict K V) :
  dict_wf m → m ≠ [] → Z.of_nat (length m) ≤ Py.sys_maxsize →
  to_list (chunk (DDict m) (Z.of_nat (length m))) = Ok [DDict m].
Proof.
  intros Hwf Hne Hmax.
  assert (0 < length m)%nat by (destruct m; simpl; [done|lia]).
  rewrite to_list_chunk_dict by (done || lia).
  replace (ceil_div (Z.of_nat (length m)) (Z.of_nat (length m))) with 1.
  - replace (Z.to_nat 1) with 1%nat by lia. simpl.
    rewrite Nat2Z.id, take_ge by lia. done.
  - unfold ceil_div.
    replace (Z.of_nat (length m) + Z.of_nat (length m) - 1)
      with (Z.of_nat (length m) - 1 + 1 * Z.of_nat (length m)) by lia.
    rewrite Z.div_add by lia. rewrite Z.div_small by lia. done.
Qed.

(** C4, as the code has it: a call with [size <= 0] is not rejected.
    With [size = 0] the first advance of the generator raises
    [ValueError] and no chunk is produced; with [size < 0] nothing is
    raised and the generator stops at once, having produced no chunk. *)
Theorem chunk_nonpositive_size (d : data K V) (size : Z) :
  size ≤ 0 →
  (next (chunk d size)).1
    = (if size =? 0 then Raised ValueError else StopIteration)
  ∧ to_list (chunk d size)
    = (if size =? 0 then Raise ValueError else Ok []).
Proof.
  intros Hs. unfold next, to_list, chunk; simpl.
  destruct (Z.eqb_spec size 0) as [->|Hne].
  - done.
  - rewrite range_backward; [done| |lia]. destruct d; simpl; lia.
Qed.

End ChunkerDictFacts.

(** ** The chunker at concrete inputs *)

Section ChunkerExamples.
Import Chunker.

(** C1: on the dict [{"a": 1, "b": 2, "c": 3}] with [size = 2] both
    chunks are [{"a": 1, "b": 2}]: the key ["c"] is in no chunk and the
    keys ["a"] and ["b"] are in two. *)
Theorem chunk_dict_repeats_first_chunk :
  to_list (chunk (DDict [("a"%string, 1); ("b"%string, 2); ("c"%string, 3)]) 2)
  = Ok [DDict [("a"%string, 1); ("b"%string, 2)];
        DDict [("a"%string, 1); ("b"%string, 2)]].
Proof. reflexivity. Qed.

(** C3: on the dict [{"a": 1, "b": 2}] with [size = 1] both chunks are
    [{"a": 1}]: the entry ["b"] has no chunk of its own. *)
Theorem chunk_dict_size_one_repeats :
  to_list (chunk (DDict [("a"%string, 1); ("b"%string, 2)]) 1)
  = Ok [DDict [("a"%string, 1)]; DDict [("a"%string, 1)]].
Proof. reflexivity. Qed.

(** C4 fails at [size = -1]: the call is not rejected, advancing the
    generator raises nothing and it yields no chunk. *)
Lemma chunk_negative_size_not_rejected :
  -1 ≤ 0
  ∧ (next (chunk (K:=string) (DList [1; 2; 3]) (-1))).1 = StopIteration
  ∧ to_list (chunk (K:=string) (DList [1; 2; 3]) (-1)) = Ok []
  ∧ ¬ (∀ (d : data string Z) (size : Z), size ≤ 0 →
         ∃ e, to_list (chunk d size) = Raise e).
Proof.
  split; [lia|]. split; [reflexivity|]. split; [reflexivity|].
  intros Hclaim.
  destruct (Hclaim (DList [1; 2; 3]) (-1) ltac:(lia)) as [e He].
  discriminate He.
Qed.

Lemma chunk_nonpositive_size_witness :
  (next (chunk (K:=string) (DList [1; 2; 3]) 0)).1 = Raised ValueError
  ∧ to_list (chunk (K:=string) (DList [1; 2; 3]) 0) = Raise ValueError.
Proof.
  apply (chunk_nonpositive_size (K:=string) (DList [1; 2; 3]) 0). lia.
Defined.

Lemma chunk_list_spec_witness :
  ∃ cs : list (list Z),
    to_list (chunk (K:=string) (DList [1; 2; 3; 4; 5]) 2) = Ok (map DList cs)
    ∧ Z.of_nat (length cs) = ceil_div (Z.of_nat (length [1; 2; 3; 4; 5])) 2
    ∧ (∀ (i : nat) (c : list Z), cs !! i = Some c →
         c = take (Z.to_nat 2) (drop (i * Z.to_nat 2) [1; 2; 3; 4; 5])
         ∧ (0 < length c ≤ Z.to_nat 2)%nat
         ∧ ((S i < length cs)%nat → length c = Z.to_nat 2))
    ∧ concat cs = [1; 2; 3; 4; 5]
    ∧ ([1; 2; 3; 4; 5] = [] → cs = []).
Proof.
  apply (chunk_list_spec (K:=string) [1; 2; 3; 4; 5] 2). lia.
Defined.

End ChunkerExamples.

(** ** The result sink *)

Section SinkFacts.
Context {record blob : Type}.
Variable dumps : record → option blob.
Variable faults : nat → option exn.
Import Sink.

Local Abbreviation attempt := (attempt dumps faults).
Local Abbreviation retry_loop := (retry_loop dumps faults).
Local Abbreviation sqlite_writer := (sqlite_writer dumps faults).
Local Abbreviation ensure_schema := (ensure_schema faults).

(** The world after a committed pass. *)
Lemma attempt_unfold (w : world record blob) :
  attempt w =
  match dumps (w_res w) with
  | None => Fail TypeError (count_dumps w)
  | Some b =>
      let w1 := tick (count_dumps w) in
      match faults (w_ops w) with
      | Some e => if is_operational e then Done None w1 else Fail e w1
      | None =>
          if has_table (w_store w) then
            let w2 := tick (set_pending w1 (w_pending w ++ [b])) in
            match faults (S (w_ops w)) with
            | Some e => if is_operational e then Done None w2 else Fail e w2
            | None =>
                Done (Some tt)
                  (set_pending
                     (set_store w2
                        (Store (file_exists (w_store w)) true
                               (rows (w_store w) ++ w_pending w ++ [b]))) [])
            end
          else Done None w1
      end
  end.
Proof.
  unfold Sink.attempt, suppress, bind, msgpack_dumps, execute_insert, commit,
    driver_call.
  destruct (dumps (w_res w)) as [b|]; simpl; [|done].
  destruct (faults (w_ops w)) as [e|]; simpl; [by destruct (is_operational e)|].
  destruct (has_table (w_store w)) eqn:Ht; simpl; [|done].
  destruct (faults (S (w_ops w))) as [e|]; simpl; [by destruct (is_operational e)|].
  rewrite Ht. done.
Qed.

Lemma retry_loop_S (fuel : nat) (w : world record blob) :
  retry_loop (S fuel) w =
  match attempt w with
  | Done (Some _) w' => Done tt w'
  | Done None w' => retry_loop fuel w'
  | Fail e w' => Fail e w'
  | Spin w' => Spin w'
  end.
Proof.
  simpl. unfold bind. destruct (attempt w) as [[?|] ?| |]; done.
Qed.

Lemma transient_lock_operational (e : exn) :
  is_transient_lock e = true → is_operational e = true.
Proof. destruct e as [| | |[]|]; simpl; done. Qed.



(** What a pass that does not raise leaves behind. *)
Lemma attempt_done (w w1 : world record blob) (r : option unit) :
  attempt w = Done r w1 →
  ∃ b, dumps (w_res w) = Some b
    ∧ w_res w1 = w_res w
    ∧ w_dumps w1 = S (w_dumps w)
    ∧ has_table (w_store w1)
      = match r with Some _ => true | None => has_table (w_store w) end
    ∧ file_exists (w_store w1) = file_exists (w_store w)
    ∧ match r with
      | Some _ =>
          rows (w_store w1) = rows (w_store w) ++ w_pending w ++ [b]
          ∧ w_pending w1 = []
      | None =>
          rows (w_store w1) = rows (w_store w)
          ∧ (w_pending w1 = w_pending w ∨ w_pending w1 = w_pending w ++ [b])
      end.
Proof.
  rewrite attempt_unfold.
  destruct (dumps (w_res w)) as [b|]; [|done]. simpl.
  destruct (faults (w_ops w)) as [e|].
  { destruct (is_operational e); [|done].
    intros [= <- <-]. exists b. simpl. eauto 10. }
  destruct (has_table (w_store w)) eqn:Ht.
  2:{ intros [= <- <-]. exists b. simpl. eauto 10. }
  destruct (faults (S (w_ops w))) as [e|].
  { destruct (is_operational e); [|done].
    intros [= <- <-]. exists b. simpl. eauto 10. }
  intros [= <- <-]. exists b. simpl. eauto 10.
Qed.

(** Leaving the loop normally means a row was inserted and committed. *)
Lemma retry_loop_done (fuel : nat) (w w' : world record blob) :
  retry_loop fuel w = Done tt w' →
  ∃ b k, dumps (w_res w) = Some b
    ∧ rows (w_store w') = rows (w_store w) ++ w_pending w ++ replicate (S k) b
    ∧ w_pending w' = []
    ∧ has_table (w_store w') = true
    ∧ file_exists (w_store w') = file_exists (w_store w)
    ∧ w_res w' = w_res w.
Proof.
  revert w. induction fuel as [|fuel IH]; intros w; [done|].
  rewrite retry_loop_S.
  destruct (attempt w) as [[[]|] w1|e1 w1|w1] eqn:Ha; try done.
  - intros [= <-].
    apply attempt_done in Ha as (b & Hb & Hres & _ & Ht & Hf & Hrows & Hp).
    exists b, 0%nat. simpl. eauto 10.
  - intros Hloop.
    apply attempt_done in Ha as (b & Hb & Hres & _ & Ht & Hf & Hrows & Hp).
    apply IH in Hloop as (b' & k & Hb' & Hrows' & Hp' & Ht' & Hf' & Hres').
    rewrite Hres, Hb in Hb'. injection Hb' as <-.
    rewrite Hrows in Hrows'.
    destruct Hp as [Hp|Hp]; rewrite Hp in Hrows'.
    + exists b, k. rewrite Hres', Hf', Hres, Hf. eauto 10.
    + exists b, (S k). rewrite Hres', Hf', Hres, Hf.
      split; [done|]. split; [|done].
      rewrite Hrows'. by rewrite <- !app_assoc.
Qed.

Lemma attempt_res (w : world record blob) :
  w_res (final_world (attempt w)) = w_res w.
Proof.
  rewrite attempt_unfold.
  repeat case_match; done.
Qed.

Lemma retry_loop_res (fuel : nat) (w : world record blob) :
  w_res (final_world (retry_loop fuel w)) = w_res w.
Proof.
  revert w. induction fuel as [|fuel IH]; intros w; [done|].
  rewrite retry_loop_S. pose proof (attempt_res w) as Ha.
  destruct (attempt w) as [[?|] w1|e1 w1|w1]; simpl in *; try done.
  by rewrite IH.
Qed.

(** The schema step: it ends, it leaves rows, record and serialization
    count alone, and only an error outside [OperationalError] leaves
    it. *)
Lemma ensure_schema_outcome (w : world record blob) :
  (∃ w', ensure_schema w = Done tt w' ∨
         ∃ e, ensure_schema w = Fail e w' ∧ is_operational e = false)
  ∧ rows (w_store (final_world (ensure_schema w))) = rows (w_store w)
  ∧ w_res (final_world (ensure_schema w)) = w_res w
  ∧ w_dumps (final_world (ensure_schema w)) = w_dumps w.
Proof.
  unfold Sink.ensure_schema, path_exists, bind, suppress, with_connection,
    connect, execute_create, commit, driver_call, ret, close.
  destruct w as [[fe ht rs] p ops nd r]; simpl.
  repeat (case_match; simplify_eq; simpl in * );
    rewrite ?app_nil_r; eauto 10.
Qed.

Lemma with_connection_unfold {A} (body : M A) (w : world record blob) :
  with_connection faults body w =
  match faults (w_ops w) with
  | Some e => Fail e (tick w)
  | None =>
      let s := w_store w in
      let w1 := set_pending
                  (set_store (tick w) (Store true (has_table s) (rows s))) [] in
      match body w1 with
      | Done a w2 => Done a (close w2)
      | Fail e w2 => Fail e (close w2)
      | Spin w2 => Spin w2
      end
  end.
Proof.
  unfold with_connection, connect, driver_call.
  destruct (faults (w_ops w)); done.
Qed.

(** A call that returns has inserted and committed the encoded record. *)
Lemma sqlite_writer_done (fuel : nat) (w w' : world record blob) :
  sqlite_writer fuel w = Done tt w' →
  ∃ b k, dumps (w_res w) = Some b
    ∧ rows (w_store w') = rows (w_store w) ++ replicate (S k) b
    ∧ w_pending w' = []
    ∧ has_table (w_store w') = true
    ∧ file_exists (w_store w') = true
    ∧ w_res w' = w_res w.
Proof.
  unfold Sink.sqlite_writer, bind.
  destruct (ensure_schema_outcome w) as (_ & Hrows & Hres & _).
  destruct (ensure_schema w) as [[] w0|e w0|w0]; [|done..].
  simpl in Hrows, Hres.
  rewrite with_connection_unfold.
  destruct (faults (w_ops w0)); [done|]. simpl.
  destruct (Sink.retry_loop _ _ _ _) as [[] w2|e w2|w2] eqn:Hloop; [|done..].
  intros [= <-].
  apply retry_loop_done in Hloop as (b & k & Hb & Hr & Hp & Ht & Hf & Hres').
  simpl in *. exists b, k. rewrite Hr, Hres', <- Hrows, <- Hres.
  by repeat split.
Qed.


(** C6, as the code has it: with the file present the schema step does
    nothing, whether or not the file holds the table; the
    [CREATE TABLE IF NOT EXISTS] statement leaves a store that has the
    table as it is; the step always ends and no [OperationalError]
    leaves it; with the file missing and the connection and the
    statement let through, the table exists after it; and after every
    call of [sqlite_writer] that returns, the table exists. *)
Theorem schema_creation (w : world record blob) :
  (file_exists (w_store w) = true → ensure_schema w = Done tt w)
  ∧ (has_table (w_store w) = true → faults (w_ops w) = None →
     execute_create faults w = Done tt (tick w))
  ∧ (∃ w', ensure_schema w = Done tt w' ∨
           ∃ e, ensure_schema w = Fail e w' ∧ is_operational e = false)
  ∧ (∀ e w', ensure_schema w = Fail e w' → is_transient_lock e = false)
  ∧ (file_exists (w_store w) = false →
     faults (w_ops w) = None → faults (S (w_ops w)) = None →
     has_table (w_store (final_world (ensure_schema w))) = true)
  ∧ (∀ fuel w', sqlite_writer fuel w = Done tt w' →
     has_table (w_store w') = true).
Proof.
  split; [|split; [|split; [|split; [|split]]]].
  - intros Hf. unfold Sink.ensure_schema, path_exists, bind, ret.
    by rewrite Hf.
  - intros Ht Hf. unfold execute_create, driver_call. rewrite Hf.
    destruct w as [[fe ht rs] p ops nd r]; simpl in *. by subst.
  - apply ensure_schema_outcome.
  - intros e w' Hfail.
    destruct (ensure_schema_outcome w) as ((w0 & [Hd|(e0 & Hf & He)]) & _);
      [congruence|].
    rewrite Hfail in Hf. injection Hf as -> ->.
    destruct (is_transient_lock e0) eqn:Hl; [|done].
    apply transient_lock_operational in Hl. congruence.
  - intros Hf H0 H1.
    unfold Sink.ensure_schema, path_exists, bind, suppress, with_connection,
      connect, execute_create, commit, driver_call, ret, close.
    rewrite Hf. simpl. rewrite H0. simpl. rewrite H1. simpl.
    repeat (case_match; simplify_eq; simpl in * ); done.
  - intros fuel w' Hdone.
    by apply sqlite_writer_done in Hdone as (b & k & _ & _ & _ & Ht & _).
Qed.


End SinkFacts.

(** ** The summary renderer *)

Section SummaryFacts.
Import Summary.

Lemma deref_pop_none_eq (l : nat) (h : heap) :
  deref (pop_none l h) l = delete None (deref h l).
Proof. unfold deref at 1, pop_none. by rewrite lookup_insert_eq. Qed.

Lemma lookup_pop_none_ne (l l' : nat) (h : heap) :
  l ≠ l' → pop_none l h !! l' = h !! l'.
Proof. intros Hne. unfold pop_none. by rewrite lookup_insert_ne. Qed.

Lemma truthy_false (c : counter) : truthy c = false → c = ∅.
Proof.
  unfold truthy. intros Hb. apply bool_decide_eq_false in Hb.
  by destruct (decide (c = ∅)).
Qed.

Lemma truthy_true (c : counter) : truthy c = true → c ≠ ∅.
Proof. unfold truthy. intros Hb. by apply bool_decide_eq_true in Hb. Qed.

(** [sorted] does not raise once [None] is popped. *)
Lemma sorted_items_popped (c : counter) :
  sorted_items (delete None c)
  = Ok (merge_sort (fun a b => item_leb a b) (map_to_list (delete None c))).
Proof.
  unfold sorted_items. rewrite lookup_delete_eq.
  rewrite bool_decide_eq_false_2; [done|]. by intros [? ?].
Qed.

Lemma sorted_items_keys (c : counter) (its : list item) (it : item) :
  sorted_items (delete None c) = Ok its → it ∈ its → it.1 ≠ None.
Proof.
  rewrite sorted_items_popped. intros [= <-] Hin.
  rewrite merge_sort_Permutation in Hin.
  destruct it as [k v]. apply elem_of_map_to_list in Hin. simpl.
  intros ->. by rewrite lookup_delete_eq in Hin.
Qed.

Lemma render_aad_popped (c : counter) :
  ∃ p, render_aad (delete None c) = Ok p
    ∧ ∀ t r, t ∈ p_tables p → r ∈ t_rows t → r.1 ≠ None.
Proof.
  unfold render_aad. rewrite sorted_items_popped. simpl.
  eexists. split; [done|]. simpl.
  intros t r Ht Hr. apply list_elem_of_singleton in Ht as ->. simpl in Hr.
  apply list_elem_of_fmap in Hr as (it & -> & Hit). simpl.
  by apply (sorted_items_keys c _ it (sorted_items_popped c)).
Qed.

Lemma render_arm_popped (c : counter) :
  ∃ p, render_arm (delete None c) = Ok p
    ∧ ∀ t r, t ∈ p_tables p → r ∈ t_rows t → r.1 ≠ None.
Proof.
  unfold render_arm. rewrite sorted_items_popped. cbn [rbind].
  rewrite to_list_chunk_list
    by (pose proof (Z.div_pos (Z.of_nat (size (delete None c))) 3); lia).
  cbn [rbind]. eexists. split; [done|]. cbn [p_tables].
  intros t r Ht Hr.
  apply list_elem_of_fmap in Ht as (ch & -> & Hch).
  apply list_elem_of_fmap in Hch as (win & -> & Hwin).
  apply list_elem_of_fmap in Hwin as (k & -> & _).
  cbn [t_rows chunk_rows] in Hr.
  apply list_elem_of_fmap in Hr as (it & -> & Hit). simpl.
  apply subseteq_take, subseteq_drop in Hit.
  by apply (sorted_items_keys c _ it (sorted_items_popped c)).
Qed.

(** C10: the call returns its panels, and leaves each counter it was
    given, in the caller's own object, without the key [None] and with
    every other entry as it was; this holds too when both arguments are
    one object; a counter that was empty, and every object that is not
    an argument, is as it was; no row of a panel has the key [None]. *)
Theorem gen_results_tables_pops_none (aad arm : nat) (h : heap) :
  ∃ panels h',
    gen_results_tables aad arm h = (Ok panels, h')
    ∧ (∀ l, l = aad ∨ l = arm → deref h l ≠ ∅ →
         deref h' l = delete None (deref h l)
         ∧ deref h' l !! None = None
         ∧ ∀ k, k ≠ None → deref h' l !! k = deref h l !! k)
    ∧ (∀ l, l = aad ∨ l = arm → deref h l = ∅ → h' !! l = h !! l)
    ∧ (∀ l, l ≠ aad → l ≠ arm → h' !! l = h !! l)
    ∧ (∀ p t r, p ∈ panels → t ∈ p_tables p → r ∈ t_rows t → r.1 ≠ None).
Proof.
  set (h1 := if truthy (deref h aad) then pop_none aad h else h).
  set (h2 := if truthy (deref h1 arm) then pop_none arm h1 else h1).
  assert (Hrun : ∃ panels, gen_results_tables aad arm h = (Ok panels, h2)
    ∧ ∀ p t r, p ∈ panels → t ∈ p_tables p → r ∈ t_rows t → r.1 ≠ None).
  { unfold gen_results_tables. subst h2 h1.
    destruct (truthy (deref h aad)) eqn:Haad.
    - rewrite deref_pop_none_eq.
      destruct (render_aad_popped (deref h aad)) as (p1 & -> & Hp1).
      cbn [rbind].
      destruct (truthy (deref (pop_none aad h) arm)) eqn:Harm.
      + rewrite deref_pop_none_eq.
        destruct (render_arm_popped (deref (pop_none aad h) arm))
          as (p2 & -> & Hp2).
        cbn [rbind]. eexists. split; [done|].
        intros p t r Hp. simpl in Hp.
        apply elem_of_cons in Hp as [->|Hp]; [apply Hp1|].
        apply list_elem_of_singleton in Hp as ->. apply Hp2.
      + eexists. split; [done|].
        intros p t r Hp. apply list_elem_of_singleton in Hp as ->. apply Hp1.
    - destruct (truthy (deref h arm)) eqn:Harm.
      + rewrite deref_pop_none_eq.
        destruct (render_arm_popped (deref h arm)) as (p2 & -> & Hp2).
        cbn [rbind]. eexists. split; [done|].
        intros p t r Hp. simpl in Hp.
        apply list_elem_of_singleton in Hp as ->. apply Hp2.
      + eexists. split; [done|]. intros p t r Hp. by apply elem_of_nil in Hp. }
  destruct Hrun as (panels & Hrun & Hrows).
  exists panels, h2. split; [done|].
  assert (Hstep : ∀ (l : nat) (g : heap),
    deref (if truthy (deref g l) then pop_none l g else g) l
    = delete None (deref g l)).
  { intros l g. destruct (truthy (deref g l)) eqn:Ht.
    - apply deref_pop_none_eq.
    - apply truthy_false in Ht. rewrite Ht. by rewrite delete_empty. }
  assert (Hother : ∀ (l l' : nat) (g : heap), l ≠ l' →
    (if truthy (deref g l) then pop_none l g else g) !! l' = g !! l').
  { intros l l' g Hne. destruct (truthy (deref g l)); [|done].
    by apply lookup_pop_none_ne. }
  assert (Hfinal : ∀ l, l = aad ∨ l = arm →
    deref h2 l = delete None (deref h l)).
  { intros l Hl. subst h2.
    destruct (decide (l = arm)) as [->|Hne_arm].
    - rewrite Hstep. subst h1.
      destruct (decide (aad = arm)) as [->|Hne].
      + rewrite Hstep. by rewrite delete_delete_eq.
      + unfold deref at 1. by rewrite Hother.
    - destruct Hl as [-> | ->]; [|done].
      unfold deref at 1. rewrite Hother by done.
      fold (deref h1 aad). subst h1. apply Hstep. }
  split; [|split; [|split]]; [| | |done].
  - intros l Hl _. rewrite (Hfinal l Hl).
    split; [done|]. split; [apply lookup_delete_eq|].
    intros k Hk. by apply lookup_delete_ne.
  - intros l Hl Hempty. subst h2 h1.
    assert (Hnt : truthy (deref h l) = false).
    { unfold truthy. rewrite Hempty. apply bool_decide_eq_false_2.
      intros Hx. by apply Hx. }
    destruct (decide (l = aad)) as [->|Hne1].
    + rewrite Hnt.
      destruct (decide (aad = arm)) as [->|Hne]; [by rewrite Hnt|].
      by rewrite Hother.
    + destruct Hl as [-> | ->]; [done|].
      assert (deref (if truthy (deref h aad) then pop_none aad h else h) arm
              = deref h arm) as Hd.
      { unfold deref at 1 3. by rewrite Hother. }
      rewrite Hd, Hnt. by apply Hother.
  - intros l H1 H2. subst h2 h1. rewrite !Hother by done. done.
Qed.
End SummaryFacts.

(** ** The sink and the renderer at concrete inputs *)

Section SinkExamples.
Import Sink Samples Fixtures.


Lemma schema_creation_witness :
  has_table (w_store (final_world
    (ensure_schema no_faults (fresh (SInt 7))))) = true.
Proof.
  destruct (schema_creation sample_dumps no_faults (fresh (SInt 7)))
    as (_ & _ & _ & _ & Hcreate & _).
  apply Hcreate; reflexivity.
Defined.



(** C6 fails for the schema step on its own.  On a file that exists
    and holds no table the step does nothing and ends normally; on a
    missing file, when the [CREATE TABLE] statement finds the database
    locked, the error is swallowed and the step ends normally with the
    file created and no table in it. *)
Lemma schema_step_can_end_without_table :
  ensure_schema no_faults (tableless (SInt 7)) = Done tt (tableless (SInt 7))
  ∧ has_table (w_store (tableless (SInt 7))) = false
  ∧ is_transient_lock (OperationalError Locked) = true
  ∧ ensure_schema locked_create (fresh (SInt 7))
    = Done tt (World (Store true false []) [] 2 0 (SInt 7))
  ∧ ¬ (∀ (faults : nat → option exn) (w w' : world sample (list Z)),
         ensure_schema faults w = Done tt w' →
         has_table (w_store w') = true).
Proof.
  split; [reflexivity|]. split; [reflexivity|]. split; [reflexivity|].
  split; [reflexivity|].
  intros Hclaim.
  specialize (Hclaim no_faults (tableless (SInt 7)) (tableless (SInt 7))
                eq_refl).
  discriminate Hclaim.
Qed.



End SinkExamples.

Section SummaryExamples.
Import Summary Samples.

(** One object passed for both arguments: it comes back without its
    [None] entry and with its other entries. *)
Lemma gen_results_tables_pops_none_witness :
  ∃ panels h',
    gen_results_tables 7 7 sample_heap = (Ok panels, h')
    ∧ deref h' 7 !! None = None
    ∧ deref h' 7 !! Some "vm"%string = Some 2.
Proof.
  destruct (gen_results_tables_pops_none 7 7 sample_heap)
    as (panels & h' & Hrun & Hpop & _).
  exists panels, h'. split; [exact Hrun|].
  destruct (Hpop 7%nat (or_introl eq_refl)) as (_ & Hnone & Hrest).
  - intros Hempty. apply (f_equal (fun c : counter => c !! None)) in Hempty.
    vm_compute in Hempty. discriminate Hempty.
  - split; [exact Hnone|]. rewrite Hrest; [reflexivity|discriminate].
Defined.

End SummaryExamples.

(** * Further properties *)

(** ** The chunker: boundaries, laziness *)

Section ChunkerMore.
Context {K V : Type} `{EqDecision K}.
Import Chunker.

Lemma ceil_div_oversize (L size : Z) :
  0 < L ≤ size → ceil_div L size = 1.
Proof.
  intros HL. unfold ceil_div.
  replace (L + size - 1) with (L - 1 + 1 * size) by lia.
  rewrite Z.div_add by lia. rewrite Z.div_small by lia. done.
Qed.

(** X2: A size that reaches the length of a non-empty list gives the list
    back as its only chunk. *)
Theorem chunk_list_oversize (l : list V) (size : Z) :
  l ≠ [] → Z.of_nat (length l) ≤ size →
  to_list (chunk (K:=K) (DList l) size) = Ok [DList l].
Proof.
  intros Hne Hsize.
  assert (0 < length l)%nat by (destruct l; simpl; [done|lia]).
  rewrite to_list_chunk_list by lia.
  rewrite ceil_div_oversize by lia.
  replace (Z.to_nat 1) with 1%nat by lia. cbn [seq map].
  rewrite Nat.mul_0_l, drop_0, take_ge by lia. done.
Qed.

(** X4: A size that reaches the length of a non-empty dict, and that
    [islice] accepts (at most [sys.maxsize]), gives the dict back as its
    only chunk. *)
Theorem chunk_dict_oversize (m : dict K V) (size : Z) :
  dict_wf m → m ≠ [] → Z.of_nat (length m) ≤ size ≤ Py.sys_maxsize →
  to_list (chunk (DDict m) size) = Ok [DDict m].
Proof.
  intros Hwf Hne Hsize.
  assert (0 < length m)%nat by (destruct m; simpl; [done|lia]).
  rewrite to_list_chunk_dict by (done || lia).
  rewrite ceil_div_oversize by lia.
  replace (Z.to_nat 1) with 1%nat by lia. simpl.
  rewrite take_ge by lia. done.
Qed.

(** X3: on a dict every chunk is the same: for a positive size that
    [islice] accepts (at most [sys.maxsize]), [ceil(L/size)] chunks are
    yielded and each holds the first [size] items of the dict, because
    the loop index does not enter [islice(data, size)]. *)
Theorem chunk_dict_repeats_prefix (m : dict K V) (size : Z) :
  dict_wf m → 0 < size ≤ Py.sys_maxsize →
  ∃ cs,
    to_list (chunk (DDict m) size) = Ok cs
    ∧ Z.of_nat (length cs) = ceil_div (Z.of_nat (length m)) size
    ∧ ∀ c, c ∈ cs → c = DDict (take (Z.to_nat size) m).
Proof.
  intros Hwf Hs.
  pose proof (ceil_div_bounds (Z.of_nat (length m)) size ltac:(lia)
                ltac:(lia)) as (Hq0 & _ & _).
  eexists. split; [by apply to_list_chunk_dict|].
  split; [rewrite length_replicate; lia|].
  intros c Hc. by apply elem_of_replicate in Hc as [-> _].
Qed.

(** X9: beyond the bound of [islice]: on a non-empty dict a size above
    [sys.maxsize] makes the first advance of the generator raise the
    [ValueError] of [islice]; no chunk is yielded. *)
Theorem chunk_dict_beyond_maxsize (m : dict K V) (size : Z) :
  m ≠ [] → Py.sys_maxsize < size →
  to_list (chunk (DDict m) size) = Raise ValueError
  ∧ (next (chunk (DDict m) size)).1 = Raised ValueError.
Proof.
  intros Hne Hsize.
  assert (0 < Z.of_nat (length m)) as Hlen
    by (destruct m; simpl; [done|lia]).
  assert (0 < size) as Hs by (unfold Py.sys_maxsize in Hsize; lia).
  pose proof (ceil_div_bounds (Z.of_nat (length m)) size ltac:(lia) Hs)
    as (Hq0 & Hcover & _).
  assert (Hbody : ∀ idx, chunk_body (DDict m) size idx = Raise ValueError).
  { intros idx. unfold chunk_body, Py.islice.
    destruct (Z.ltb_spec size 0); [lia|].
    destruct (Z.ltb_spec Py.sys_maxsize size); [done|lia]. }
  unfold to_list, next, chunk. cbn [g_state g_data g_size len].
  rewrite range_forward by lia.
  destruct (Z.to_nat (ceil_div (Z.of_nat (length m)) size)) as [|q] eqn:Hq;
    [nia|].
  cbn [seq map rbind collect resume set_state g_data g_size].
  rewrite !Hbody. done.
Qed.

(** X5: nothing to chunk: an empty list or dict gives no chunk for every
    size but zero, and for size zero the [ValueError] of [range] all the
    same. *)
Theorem chunk_empty (d : data K V) (size : Z) :
  len d = 0 →
  to_list (chunk d size) = (if size =? 0 then Raise ValueError else Ok [])
  ∧ (next (chunk d size)).1
    = (if size =? 0 then Raised ValueError else StopIteration).
Proof.
  intros Hlen. unfold to_list, next, chunk. simpl. rewrite Hlen.
  unfold Py.range, Py.range_length.
  destruct (Z.eqb_spec size 0); [done|].
  destruct (Z.ltb_spec 0 size); simpl; done.
Qed.

Lemma advance_iterating_list (l : list V) (size : Z) (n : nat) (idxs : list Z) :
  advance n (Generator (K:=K) (DList l) size (Iterating idxs))
  = Generator (DList l) size
      (if decide (n ≤ length idxs)%nat then Iterating (drop n idxs)
       else Finished).
Proof.
  revert idxs. induction n as [|n IH]; intros idxs.
  - cbn [advance]. case_decide; [by rewrite drop_0|lia].
  - cbn [advance]. destruct idxs as [|idx rest].
    + unfold next, resume, set_state; cbn [g_state g_data g_size snd].
      rewrite decide_False by (simpl; lia).
      clear IH. induction n as [|n IHn]; [done|]. apply IHn.
    + unfold next, resume, set_state;
        cbn [g_state g_data g_size snd chunk_body].
      rewrite IH. cbn [length drop].
      destruct (decide (n ≤ length rest)%nat);
        [rewrite decide_True by lia|rewrite decide_False by lia]; done.
Qed.

(** X6: the generator is lazy and ordered: on a list and a positive size,
    call number [i] of [next] (counting from zero) yields the window of
    [size] items at [i * size] while [i] is below [ceil(L/size)], and
    [StopIteration] from then on. *)
Theorem next_yields_window (l : list V) (size : Z) (i : nat) :
  0 < size →
  (next (advance i (chunk (K:=K) (DList l) size))).1
  = if decide (Z.of_nat i < ceil_div (Z.of_nat (length l)) size)
    then Yield (DList (take (Z.to_nat size) (drop (i * Z.to_nat size) l)))
    else StopIteration.
Proof.
  intros Hs.
  pose proof (ceil_div_bounds (Z.of_nat (length l)) size ltac:(lia) Hs)
    as (Hq0 & _ & _).
  set (q := ceil_div (Z.of_nat (length l)) size) in *.
  set (idxs := map (fun k : nat => Z.of_nat k * size) (seq 0 (Z.to_nat q))).
  assert (Hlen : length idxs = Z.to_nat q)
    by (subst idxs; by rewrite length_map, length_seq).
  assert (Hrange : Py.range 0 (Z.of_nat (length l)) size = Ok idxs)
    by (by apply range_forward; lia).
  assert (Hresume : ∀ g rest,
    g_data g = DList l → g_size g = size →
    (resume (K:=K) g rest).1
    = match rest with
      | [] => StopIteration
      | idx :: _ => Yield (DList (Py.slice l idx (idx + size)))
      end).
  { intros g [|idx rest] Hd Hsz; unfold resume; [done|].
    rewrite Hd, Hsz. done. }
  assert (Hidx : ∀ j, (j < Z.to_nat q)%nat →
    drop j idxs = (Z.of_nat j * size) :: drop (S j) idxs).
  { intros j Hj. apply drop_S. subst idxs.
    rewrite list_lookup_fmap, lookup_seq_lt by done. done. }
  assert (Hwin : ∀ j : nat,
    Py.slice l (Z.of_nat j * size) (Z.of_nat j * size + size)
    = take (Z.to_nat size) (drop (j * Z.to_nat size) l)).
  { intros j. rewrite slice_forward by lia. do 2 f_equal. lia. }
  destruct i as [|i].
  - simpl. unfold next, chunk. simpl. rewrite Hrange.
    rewrite Hresume by done.
    destruct (decide (Z.of_nat 0 < q)) as [Hlt|Hge].
    + rewrite <- (drop_0 idxs), (Hidx 0%nat) by lia. by rewrite Hwin.
    + destruct idxs; [done|]. simpl in Hlen. lia.
  - change (advance (S i) (chunk (K:=K) (DList l) size))
      with (advance i (next (chunk (K:=K) (DList l) size)).2).
    unfold next at 2, chunk. simpl. rewrite Hrange.
    destruct idxs as [|idx0 rest] eqn:Hidxs.
    + simpl. unfold set_state. simpl.
      rewrite decide_False by (simpl in Hlen; lia).
      clear. induction i as [|i IHi]; simpl; [done|]. apply IHi.
    + unfold resume. simpl. unfold set_state. simpl.
      rewrite advance_iterating_list. simpl in Hlen.
      destruct (decide (i ≤ length rest)%nat) as [Hle|Hgt].
      * unfold next. simpl. rewrite Hresume by done.
        change (drop i rest) with (drop (S i) (idx0 :: rest)).
        destruct (decide (Z.of_nat (S i) < q)) as [Hlt|Hge].
        -- rewrite (Hidx (S i)) by lia. by rewrite Hwin.
        -- rewrite drop_ge; [done|]. simpl. lia.
      * unfold next. simpl. rewrite decide_False by lia. done.
Qed.
End ChunkerMore.

(** ** The sink: what a call leaves behind *)

Section SinkMore.
Context {record blob : Type}.
Variable dumps : record → option blob.
Variable faults : nat → option exn.
Import Sink.

Local Abbreviation attempt := (attempt dumps faults).
Local Abbreviation retry_loop := (retry_loop dumps faults).
Local Abbreviation sqlite_writer := (sqlite_writer dumps faults).
Local Abbreviation ensure_schema := (ensure_schema faults).

(** A pass that does not reach [break] leaves the rows alone. *)
Lemma attempt_rows (w : world record blob) :
  match attempt w with
  | Done (Some _) _ => True
  | o => rows (w_store (final_world o)) = rows (w_store w)
  end.
Proof.
  rewrite attempt_unfold.
  destruct (dumps (w_res w)); [|done]. cbv zeta.
  destruct (faults (w_ops w)) as [e|]; [by destruct (is_operational e)|].
  destruct (has_table (w_store w)); [|done].
  destruct (faults (S (w_ops w))) as [e|]; [by destruct (is_operational e)|].
  done.
Qed.

Lemma retry_loop_rows (fuel : nat) (w : world record blob) :
  match retry_loop fuel w with
  | Done _ _ => True
  | o => rows (w_store (final_world o)) = rows (w_store w)
  end.
Proof.
  revert w. induction fuel as [|fuel IH]; intros w; [done|].
  rewrite retry_loop_S. pose proof (attempt_rows w) as Ha.
  destruct (attempt w) as [[[]|] w1|e1 w1|w1]; simpl in *; try done.
  specialize (IH w1). destruct (retry_loop fuel w1); simpl in *; congruence.
Qed.

(** X7: all or nothing: a call that raises, and a call that is still
    retrying, has left the rows of the store exactly as they were. *)
Theorem sqlite_writer_all_or_nothing (fuel : nat) (w : world record blob) :
  (∀ e w', sqlite_writer fuel w = Fail e w' →
     rows (w_store w') = rows (w_store w))
  ∧ (∀ w', sqlite_writer fuel w = Spin w' →
     rows (w_store w') = rows (w_store w)).
Proof.
  unfold Sink.sqlite_writer, bind.
  destruct (ensure_schema_outcome faults w) as (Hout & Hrows & _).
  destruct (ensure_schema w) as [[] w0|e0 w0|w0]; simpl in Hrows.
  - rewrite with_connection_unfold.
    destruct (faults (w_ops w0)); [split; intros; simplify_eq; done|].
    cbv zeta.
    pose proof (retry_loop_rows fuel
      (set_pending (set_store (tick w0)
         (Store true (has_table (w_store w0)) (rows (w_store w0)))) [])) as Hl.
    destruct (Sink.retry_loop _ _ _ _); simpl in Hl;
      split; intros; simplify_eq; simpl; congruence.
  - split; intros; simplify_eq; done.
  - split; intros; simplify_eq; done.
Qed.

(** X8: with a driver that never fails, a record the codec encodes, and a
    path that is either missing or already holds the table, the call
    returns after one pass and has appended exactly one row. *)
Theorem sqlite_writer_appends_once
    (fuel : nat) (w : world record blob) (b : blob) :
  (∀ k, faults k = None) →
  dumps (w_res w) = Some b →
  file_exists (w_store w) = false ∨ has_table (w_store w) = true →
  ∃ w', sqlite_writer (S fuel) w = Done tt w'
    ∧ rows (w_store w') = rows (w_store w) ++ [b]
    ∧ w_dumps w' = S (w_dumps w)
    ∧ file_exists (w_store w') = true
    ∧ has_table (w_store w') = true
    ∧ w_pending w' = [].
Proof.
  intros Hno Hb Hstate.
  assert (Hschema : ∃ w0, ensure_schema w = Done tt w0
            ∧ rows (w_store w0) = rows (w_store w)
            ∧ has_table (w_store w0) = true
            ∧ w_res w0 = w_res w
            ∧ w_dumps w0 = w_dumps w).
  { unfold Sink.ensure_schema, path_exists, bind, suppress,
      with_connection, connect, execute_create, commit, driver_call, ret,
      close.
    destruct (file_exists (w_store w)) eqn:Hf; simpl.
    - destruct Hstate as [Hx | Ht]; [done|]. exists w. by repeat split.
    - repeat (rewrite Hno; simpl). eexists. split; [done|]. simpl.
      rewrite app_nil_r. by repeat split. }
  destruct Hschema as (w0 & Hs & Hrows & Ht & Hres & Hnd).
  unfold Sink.sqlite_writer, bind. rewrite Hs.
  rewrite with_connection_unfold, Hno. cbv zeta.
  rewrite retry_loop_S, attempt_unfold. cbn [w_res set_pending set_store tick].
  rewrite Hres, Hb. cbv zeta. rewrite !Hno.
  cbn [w_store set_pending set_store tick count_dumps has_table].
  rewrite Ht. eexists. split; [done|]. simpl.
  rewrite Hrows, Hnd. by repeat split.
Qed.

(** X10: the connection for the write is opened outside [suppress]: when the
    path exists, any error raised by that [connect], a lock error as
    well, is raised to the caller before the record is serialized. *)
Theorem sqlite_writer_connect_error_surfaces
    (fuel : nat) (w : world record blob) (e : exn) :
  file_exists (w_store w) = true →
  faults (w_ops w) = Some e →
  sqlite_writer fuel w = Fail e (tick w).
Proof.
  intros Hf He.
  unfold Sink.sqlite_writer, Sink.ensure_schema, path_exists, bind, ret.
  rewrite Hf. by rewrite with_connection_unfold, He.
Qed.
End SinkMore.

(** ** The renderer: layout of the panels *)

Section SummaryMore.
Import Summary.

Lemma windows_cover {A} (l : list A) (size : Z) :
  0 < size →
  concat (map (fun k => take (Z.to_nat size) (drop (k * Z.to_nat size) l))
              (seq 0 (Z.to_nat (ceil_div (Z.of_nat (length l)) size))))
  = l.
Proof.
  intros Hs.
  pose proof (ceil_div_bounds (Z.of_nat (length l)) size ltac:(lia) Hs)
    as (Hq0 & Hcover & _).
  rewrite concat_windows. apply take_ge. nia.
Qed.

Lemma windows_nonempty {A} (l : list A) (size : Z) (k : nat) :
  0 < size →
  (k < Z.to_nat (ceil_div (Z.of_nat (length l)) size))%nat →
  take (Z.to_nat size) (drop (k * Z.to_nat size) l) ≠ [].
Proof.
  intros Hs Hk.
  pose proof (ceil_div_bounds (Z.of_nat (length l)) size ltac:(lia) Hs)
    as (Hq0 & _ & Hlast).
  intros Hnil. apply (f_equal length) in Hnil.
  rewrite length_take, length_drop in Hnil. simpl in Hnil.
  assert (Z.of_nat k * size < Z.of_nat (length l)) by nia.
  assert (Z.of_nat (k * Z.to_nat size) = Z.of_nat k * size) by lia.
  lia.
Qed.

Lemma thirds_bound (n : Z) : 0 ≤ n → ceil_div n (n / 3 + 1) ≤ 3.
Proof.
  intros Hn. unfold ceil_div.
  pose proof (Z.div_mod n 3 ltac:(lia)) as Hdm.
  pose proof (Z.mod_pos_bound n 3 ltac:(lia)) as Hm.
  assert ((n + (n / 3 + 1) - 1) / (n / 3 + 1) < 4); [|lia].
  apply Z.div_lt_upper_bound; lia.
Qed.

Lemma length_sorted_items (c : counter) (its : list item) :
  sorted_items (delete None c) = Ok its →
  length its = size (delete None c).
Proof.
  rewrite sorted_items_popped. intros [= <-].
  rewrite merge_sort_Permutation. apply length_map_to_list.
Qed.

(** X11: the ARM panel never has more than three tables; no table is empty,
    and their rows, read table after table, are the sorted rows of the
    counter. *)
Theorem render_arm_three_columns (c : counter) :
  ∃ its p,
    sorted_items (delete None c) = Ok its
    ∧ render_arm (delete None c) = Ok p
    ∧ (length (p_tables p) ≤ 3)%nat
    ∧ concat (map t_rows (p_tables p)) = map row its
    ∧ Forall (fun t => t_rows t ≠ []) (p_tables p).
Proof.
  pose proof (sorted_items_popped c) as Hsorted.
  set (its := merge_sort (fun a b => item_leb a b)
                (map_to_list (delete None c))) in *.
  pose proof (length_sorted_items c its Hsorted) as Hlen.
  set (n := Z.of_nat (size (delete None c))) in *.
  assert (0 < n / 3 + 1) as Hsize
    by (pose proof (Z.div_pos n 3); lia).
  unfold render_arm. rewrite Hsorted. cbn [rbind].
  rewrite to_list_chunk_list by done. cbn [rbind].
  exists its. eexists. split; [done|]. split; [done|]. cbn [p_tables].
  fold n. rewrite Hlen. fold n.
  split; [|split].
  - rewrite !length_map, length_seq.
    pose proof (thirds_bound n ltac:(lia)). lia.
  - rewrite !map_map. cbn [t_rows chunk_rows].
    rewrite <- (map_map (fun k => take _ (drop _ its)) (map row)).
    rewrite <- concat_map. f_equal.
    pose proof (windows_cover its (n / 3 + 1) Hsize) as Hc.
    rewrite Hlen in Hc. exact Hc.
  - rewrite !map_map. apply Forall_forall. intros t Ht.
    apply list_elem_of_fmap in Ht as (k & -> & Hk).
    apply elem_of_seq in Hk. cbn [t_rows chunk_rows].
    intros Hnil. apply map_eq_nil in Hnil. revert Hnil.
    apply windows_nonempty; [done|]. rewrite Hlen. fold n. lia.
Qed.

Lemma item_leb_total (a b : item) : item_leb a b = true ∨ item_leb b a = true.
Proof.
  unfold item_leb. destruct a as [[x|] va], b as [[y|] vb]; simpl; auto.
  rewrite (String.eqb_sym y x).
  destruct (String.eqb_spec x y) as [->|Hne].
  - destruct (Z.leb_spec va vb); [by left|right].
    apply Z.leb_le. lia.
  - unfold String.ltb. rewrite (String.compare_antisym y x).
    destruct (String.compare x y) eqn:Hc; simpl; auto.
    apply String.compare_eq_iff in Hc. done.
Qed.

Lemma sorted_keys_ascend (l : list item) :
  Forall (fun it => is_Some it.1) l →
  NoDup (map fst l) →
  Sorted (fun a b => item_leb a b) l →
  Sorted (fun a b => ∃ x y, a.1 = Some x ∧ b.1 = Some y
                        ∧ String.ltb x y = true) l.
Proof.
  induction l as [|a l IH]; intros Hsome Hnd Hs; [constructor|].
  apply Forall_cons in Hsome as [[x Hx] Hsome].
  simpl in Hnd. apply NoDup_cons in Hnd as [Hnotin Hnd].
  apply Sorted_inv in Hs as [Hs Hhd].
  constructor; [by apply IH|].
  destruct Hhd as [|b l' Hab]; constructor.
  apply Forall_cons in Hsome as [[y Hy] _].
  exists x, y. split; [done|]. split; [done|].
  apply Is_true_true in Hab. unfold item_leb in Hab.
  rewrite Hx, Hy in Hab.
  destruct (String.eqb_spec x y) as [->|Hne]; [|done].
  exfalso. apply Hnotin. simpl. rewrite Hx, Hy. left.
Qed.

(** X12: the AAD table shows every category of the counter other than [None]
    exactly once, with its count, in strictly ascending order of the
    category names. *)
Theorem sorted_items_ascending (c : counter) :
  ∃ its,
    sorted_items (delete None c) = Ok its
    ∧ render_aad (delete None c)
      = Ok (Panel ("[bold yellow]AAD Results (Total: "
                     +:+ pretty (total (delete None c)) +:+ ")[/]")
                  [Table (map row its)])
    ∧ (∀ k v, (k, v) ∈ its ↔ k ≠ None ∧ c !! k = Some v)
    ∧ NoDup (map fst its)
    ∧ Sorted (fun a b => ∃ x y, a.1 = Some x ∧ b.1 = Some y
                            ∧ String.ltb x y = true) its.
Proof.
  pose proof (sorted_items_popped c) as Hsorted.
  set (its := merge_sort (fun a b => item_leb a b)
                (map_to_list (delete None c))) in *.
  assert (Hperm : its ≡ₚ map_to_list (delete None c))
    by apply merge_sort_Permutation.
  assert (Hmem : ∀ k v, (k, v) ∈ its ↔ k ≠ None ∧ c !! k = Some v).
  { intros k v. rewrite Hperm, elem_of_map_to_list, lookup_delete_Some.
    split; intros [? ?]; split; done. }
  assert (Hnd : NoDup (map fst its)).
  { change (NoDup (its.*1)). rewrite Hperm. apply NoDup_fst_map_to_list. }
  exists its. split; [done|]. split; [|split; [done|split; [done|]]].
  - unfold render_aad. by rewrite Hsorted.
  - apply sorted_keys_ascend; [|done|].
    + apply Forall_forall. intros [k v] Hin. apply Hmem in Hin as [Hk _].
      simpl. destruct k; [by eexists|done].
    + apply Sorted_merge_sort. intros a b.
      destruct (item_leb_total a b) as [H|H]; [left|right];
        by apply Is_true_true.
Qed.

Lemma gen_results_tables_heap (aad arm : nat) (h : heap) :
  (gen_results_tables aad arm h).2
  = let h1 := if truthy (deref h aad) then pop_none aad h else h in
    if truthy (deref h1 arm) then pop_none arm h1 else h1.
Proof.
  unfold gen_results_tables.
  destruct (truthy (deref h aad)) eqn:Haad.
  - rewrite deref_pop_none_eq.
    destruct (render_aad_popped (deref h aad)) as (p1 & -> & _).
    cbn [rbind]. cbv zeta.
    destruct (truthy (deref (pop_none aad h) arm)); done.
  - cbv zeta. destruct (truthy (deref h arm)); done.
Qed.

Lemma pop_settled (l : nat) (g : heap) :
  deref g l !! None = None →
  (if truthy (deref g l) then pop_none l g else g) = g.
Proof.
  intros Hnone. destruct (truthy (deref g l)) eqn:Ht; [|done].
  apply truthy_true in Ht. unfold pop_none.
  rewrite delete_id by done. apply insert_id.
  unfold deref in Ht |- *. destruct (g !! l); [done|]. by destruct Ht.
Qed.

Lemma pop_clears (l l' : nat) (g : heap) :
  l = l' ∨ deref g l' !! None = None →
  deref (if truthy (deref g l) then pop_none l g else g) l' !! None = None.
Proof.
  intros Hl. destruct (truthy (deref g l)) eqn:Ht.
  - destruct (decide (l = l')) as [<-|Hne].
    + rewrite deref_pop_none_eq. apply lookup_delete_eq.
    + destruct Hl as [|Hl]; [done|].
      unfold deref at 1. by rewrite lookup_pop_none_ne.
  - destruct Hl as [<-|Hl]; [|done].
    apply truthy_false in Ht. by rewrite Ht.
Qed.

(** X13: A second call finds nothing left to remove: the counters are left as
    the first call left them. *)
Theorem gen_results_tables_settles (aad arm : nat) (h : heap) :
  (gen_results_tables aad arm (gen_results_tables aad arm h).2).2
  = (gen_results_tables aad arm h).2.
Proof.
  rewrite (gen_results_tables_heap aad arm _).
  rewrite (gen_results_tables_heap aad arm h). cbv zeta.
  set (h1 := if truthy (deref h aad) then pop_none aad h else h).
  set (h2 := if truthy (deref h1 arm) then pop_none arm h1 else h1).
  assert (Haad : deref h2 aad !! None = None).
  { subst h2. apply pop_clears. right. subst h1. apply pop_clears. by left. }
  assert (Harm : deref h2 arm !! None = None).
  { subst h2. apply pop_clears. by left. }
  rewrite (pop_settled aad h2 Haad). by apply pop_settled.
Qed.

(** X14: A counter whose only entry is [None] still counts as non-empty: it
    is emptied in place and gets a panel with no rows and a total of
    zero. *)
Theorem gen_results_tables_none_only (aad arm : nat) (h : heap) (n : Z) :
  aad ≠ arm →
  h !! aad = Some {[None := n]} →
  deref h arm = ∅ →
  gen_results_tables aad arm h
  = (Ok [Panel "[bold yellow]AAD Results (Total: 0)[/]" [Table []]],
     <[aad := ∅]> h).
Proof.
  intros Hne Haad Harm.
  assert (Hd : deref h aad = {[None := n]}) by (unfold deref; by rewrite Haad).
  assert (Hpop : pop_none aad h = <[aad := ∅]> h).
  { unfold pop_none. by rewrite Hd, delete_singleton_eq. }
  unfold gen_results_tables.
  assert (truthy (deref h aad) = true) as ->.
  { unfold truthy. rewrite Hd. apply bool_decide_eq_true_2.
    apply insert_non_empty. }
  rewrite deref_pop_none_eq, Hd, delete_singleton_eq.
  assert (render_aad ∅
          = Ok (Panel "[bold yellow]AAD Results (Total: 0)[/]" [Table []]))
    as ->.
  { unfold render_aad, sorted_items, total.
    rewrite lookup_empty, map_to_list_empty, map_fold_empty. done. }
  cbn [rbind].
  assert (deref (pop_none aad h) arm = ∅) as ->.
  { unfold deref at 1. by rewrite lookup_pop_none_ne. }
  assert (truthy (∅ : counter) = false) as ->.
  { unfold truthy. apply bool_decide_eq_false_2. intros Hx. by apply Hx. }
  by rewrite Hpop.
Qed.
End SummaryMore.

(** ** The class walker *)

Section ClassFacts.
Import Classes.

(** Induction over a class with its subclasses. *)
Lemma klass_induction (P : klass → Prop) :
  (∀ i subs, Forall P subs → P (Klass i subs)) → ∀ c, P c.
Proof.
  intros Hstep. fix IH 1. intros [i subs]. apply Hstep.
  induction subs as [|d subs IHsubs]; constructor; [apply IH|apply IHsubs].
Qed.

Lemma get_all_subclasses_unfold (c : klass) (x : nat) :
  x ∈ get_all_subclasses c
  ↔ (∃ d, d ∈ subclasses c ∧ (kid d = x ∨ x ∈ get_all_subclasses d)).
Proof.
  destruct c as [i subs]. cbn [get_all_subclasses subclasses].
  rewrite elem_of_union, !elem_of_list_to_set.
  split.
  - intros [Hdirect|Hdeep].
    + apply list_elem_of_fmap in Hdirect as (d & -> & Hd). eauto.
    + apply list_elem_of_In, in_concat in Hdeep as (xs & Hxs & Hx).
      apply in_map_iff in Hxs as (d & <- & Hd).
      apply list_elem_of_In in Hd, Hx. apply elem_of_elements in Hx. eauto.
  - intros (d & Hd & [<-|Hx]).
    + left. apply list_elem_of_fmap. eauto.
    + right. apply list_elem_of_In, in_concat.
      exists (elements (get_all_subclasses d)). split.
      * apply in_map_iff. exists d. split; [done|]. by apply list_elem_of_In.
      * apply list_elem_of_In, elem_of_elements. done.
Qed.

(** X15: the result is exactly the classes below [cls]: a class is in
    [get_all_subclasses(cls)] if and only if it is a subclass of [cls], or
    a subclass of one, at any depth. *)
Theorem get_all_subclasses_descendants (c : klass) (x : nat) :
  x ∈ get_all_subclasses c ↔ ∃ d, descendant c d ∧ kid d = x.
Proof.
  revert x. induction c as [i subs IH] using klass_induction. intros x.
  rewrite get_all_subclasses_unfold. cbn [subclasses].
  rewrite Forall_forall in IH.
  split.
  - intros (d & Hd & [<-|Hx]).
    + exists d. split; [|done]. by apply descendant_child.
    + apply (IH d Hd) in Hx as (e & He & <-).
      exists e. split; [|done]. by apply (descendant_deeper _ d).
  - intros (e & He & <-).
    inversion He as [c0 d0 Hd|c0 d e0 Hd Hde]; subst; cbn [subclasses] in Hd.
    + exists e. eauto.
    + exists d. split; [done|]. right. apply (IH d Hd). eauto.
Qed.

(** X16: the result is closed under subclassing: with a direct subclass of
    [cls] it holds everything that [get_all_subclasses] finds below that
    subclass; and a class without subclasses gives the empty set. *)
Theorem get_all_subclasses_closed (c d : klass) :
  (d ∈ subclasses c →
   kid d ∈ get_all_subclasses c
   ∧ get_all_subclasses d ⊆ get_all_subclasses c)
  ∧ (subclasses c = [] → get_all_subclasses c = ∅).
Proof.
  split.
  - intros Hd. split.
    + apply get_all_subclasses_unfold. eauto.
    + intros x Hx. apply get_all_subclasses_unfold. eauto.
  - destruct c as [i subs]. cbn [subclasses]. intros ->. done.
Qed.
End ClassFacts.

(** ** The further properties at concrete inputs *)

Section FurtherExamples.
Import Chunker Sink Summary Classes Samples Fixtures.

Lemma chunk_list_oversize_witness :
  to_list (chunk (K:=string) (DList [1; 2; 3]) 5) = Ok [DList [1; 2; 3]].
Proof.
  apply (chunk_list_oversize (K:=string) [1; 2; 3] 5); [discriminate|].
  simpl. lia.
Defined.

Lemma chunk_dict_repeats_prefix_witness :
  ∃ cs,
    to_list (chunk (DDict [("a"%string, 1); ("b"%string, 2); ("c"%string, 3)]) 2)
      = Ok cs
    ∧ Z.of_nat (length cs) = 2
    ∧ ∀ c, c ∈ cs → c = DDict [("a"%string, 1); ("b"%string, 2)].
Proof.
  apply (chunk_dict_repeats_prefix
           [("a"%string, 1); ("b"%string, 2); ("c"%string, 3)] 2).
  - apply (bool_decide_unpack _). vm_compute. exact I.
  - unfold Py.sys_maxsize. lia.
Defined.

Lemma chunk_dict_oversize_witness :
  to_list (chunk (DDict [("a"%string, 1); ("b"%string, 2)]) 9)
  = Ok [DDict [("a"%string, 1); ("b"%string, 2)]].
Proof.
  apply (chunk_dict_oversize [("a"%string, 1); ("b"%string, 2)] 9).
  - apply (bool_decide_unpack _). vm_compute. exact I.
  - discriminate.
  - unfold Py.sys_maxsize. simpl. lia.
Defined.

Lemma chunk_dict_beyond_maxsize_witness :
  to_list (chunk (DDict [("a"%string, 1); ("b"%string, 2)]) (2 ^ 63))
    = Raise ValueError
  ∧ (next (chunk (DDict [("a"%string, 1); ("b"%string, 2)]) (2 ^ 63))).1
    = Raised ValueError.
Proof.
  apply (chunk_dict_beyond_maxsize [("a"%string, 1); ("b"%string, 2)] (2 ^ 63)).
  - discriminate.
  - unfold Py.sys_maxsize. lia.
Defined.

Lemma chunk_empty_witness :
  to_list (chunk (V:=Z) (DDict ([] : dict string Z)) 4) = Ok []
  ∧ (next (chunk (V:=Z) (DDict ([] : dict string Z)) 4)).1 = StopIteration.
Proof.
  apply (chunk_empty (DDict ([] : dict string Z)) 4). reflexivity.
Defined.

Lemma next_yields_window_witness :
  (next (advance 2 (chunk (K:=string) (DList [1; 2; 3; 4; 5]) 2))).1
  = Yield (DList [5]).
Proof.
  apply (next_yields_window (K:=string) [1; 2; 3; 4; 5] 2 2). lia.
Defined.

(** An error that is not operational at the commit of the first pass:
    the call raises and the store keeps its single row. *)
Lemma sqlite_writer_all_or_nothing_witness :
  rows (w_store (World (Store true true [[1]]) [] 3 1 (SInt 7)))
  = rows (w_store (ready (SInt 7))).
Proof.
  apply (proj1 (sqlite_writer_all_or_nothing sample_dumps corrupt_commit 1
                  (ready (SInt 7))) DatabaseError).
  reflexivity.
Defined.

Lemma sqlite_writer_appends_once_witness :
  ∃ w', sqlite_writer sample_dumps no_faults 1 (fresh (SInt 7)) = Done tt w'
    ∧ rows (w_store w') = [[7]]
    ∧ w_dumps w' = 1%nat
    ∧ file_exists (w_store w') = true
    ∧ has_table (w_store w') = true
    ∧ w_pending w' = [].
Proof.
  apply (sqlite_writer_appends_once sample_dumps no_faults 0
           (fresh (SInt 7)) [7]).
  - intros k. reflexivity.
  - reflexivity.
  - left. reflexivity.
Defined.

(** The database is locked when the connection for the write is opened:
    the lock error reaches the caller. *)
Lemma sqlite_writer_connect_error_surfaces_witness :
  sqlite_writer sample_dumps locked_first 3 (ready (SInt 7))
  = Fail (OperationalError Busy) (tick (ready (SInt 7))).
Proof.
  apply (sqlite_writer_connect_error_surfaces sample_dumps locked_first 3
           (ready (SInt 7)) (OperationalError Busy)); reflexivity.
Defined.

Lemma gen_results_tables_none_only_witness :
  gen_results_tables 1 2 none_only_heap
  = (Ok [Panel "[bold yellow]AAD Results (Total: 0)[/]" [Table []]],
     <[1%nat := ∅]> none_only_heap).
Proof.
  apply (gen_results_tables_none_only 1 2 none_only_heap 4).
  - discriminate.
  - reflexivity.
  - reflexivity.
Defined.

(** In the diamond, class 3 is found below class 0 through class 1. *)
Lemma get_all_subclasses_closed_witness :
  kid (Klass 1 [Klass 3 []]) ∈ get_all_subclasses diamond
  ∧ get_all_subclasses (Klass 1 [Klass 3 []]) ⊆ get_all_subclasses diamond.
Proof.
  apply (proj1 (get_all_subclasses_closed diamond (Klass 1 [Klass 3 []]))).
  simpl. left.
Defined.

End FurtherExamples.
